(** * Neon Bloom: the counting bloom filter behind the 3D simulation

    A shallow embedding of [bloomLogic.ts] ([getHashIndices]) and of the
    filter state and handlers of [App.tsx] ([handleInsert], [handleCheck],
    [handleDelete], the reset effect), with the properties of the
    specification proved, or refuted, over it.

    Conventions of the embedding.
    - A JavaScript [number] that holds an integer is a [Z].  Bit operators
      go through [toInt32] / [toUint32].  A single call can push the sum
      [h1 + i * h2] past 2^53, where doubles stop being exact, so that
      expression is rounded explicitly with [round53].  Counters, lengths
      and loop indices grow by one at a time from 0 and stay far below
      2^53; they are exact.
    - A value read from, or stored in, the counter array is a [jsval]:
      an integer, [NaN] or [undefined].
    - A string is the list of its UTF-16 code units; an array is the list
      of its elements.
    - React state is an explicit record that every handler transforms;
      [alert] appends to a log, [Date.now()] is an argument.
    - The numbers of the scene and of the rates that are not integers are
      IEEE 754 doubles, computed with [SpecFloat] ([Double]); what their
      rounding does to the real numbers is in [Rounding]. *)

From Stdlib Require Import QArith Reals Lra.
From Corelib Require Import SpecFloat.
From stdpp Require Import base numbers list option strings.

#[local] Open Scope Z_scope.

(** ** JavaScript numbers, cells and strings *)

Module JS.

(** [ToInt32]: reduction modulo 2^32 into the signed range. *)
Definition toInt32 (z : Z) : Z := (z + 2 ^ 31) mod 2 ^ 32 - 2 ^ 31.

(** [ToUint32], also what [x >>> 0] returns. *)
Definition toUint32 (z : Z) : Z := z mod 2 ^ 32.

(** [a ^ b]: both operands through [ToInt32], then bitwise exclusive or. *)
Definition xor (a b : Z) : Z := Z.lxor (toInt32 a) (toInt32 b).

(** [Math.imul(a, b)]: the low 32 bits of the product, signed. *)
Definition imul (a b : Z) : Z := toInt32 (toInt32 a * toInt32 b).

(** The double nearest to the integer [z] (round to nearest, ties to even,
    53-bit significand): the value of a [+] or [*] on integer doubles whose
    exact result is [z].  Integers of magnitude below 2^53 are doubles
    already. *)
Definition round53 (z : Z) : Z :=
  let a := Z.abs z in
  if a <? 2 ^ 53 then z
  else
    let e := Z.log2 a - 52 in
    let q := a / 2 ^ e in
    let r := a mod 2 ^ e in
    let half := 2 ^ (e - 1) in
    let q' := if r <? half then q
              else if half <? r then q + 1
              else if Z.even q then q else q + 1 in
    Z.sgn z * (q' * 2 ^ e).

(** Values that occur as array subscripts and array cells. *)
Inductive jsval : Type :=
| Num (z : Z)
| NaN
| Undefined.

#[global] Instance jsval_eq_dec : EqDecision jsval.
Proof. solve_decision. Defined.

(** [a % b] on integer doubles: truncated remainder, [NaN] for a zero
    divisor. *)
Definition rem (a b : Z) : jsval :=
  if b =? 0 then NaN else Num (Z.rem a b).

(** [v === 0] *)
Definition strictEq0 (v : jsval) : bool :=
  match v with Num z => z =? 0 | _ => false end.

(** [v > 0] *)
Definition gt0 (v : jsval) : bool :=
  match v with Num z => 0 <? z | _ => false end.

(** The value stored by [v++]. *)
Definition incr (v : jsval) : jsval :=
  match v with Num z => Num (z + 1) | _ => NaN end.

(** The value stored by [v--]. *)
Definition decr (v : jsval) : jsval :=
  match v with Num z => Num (z - 1) | _ => NaN end.

(** [a + b] on cells. *)
Definition add (a b : jsval) : jsval :=
  match a, b with
  | Num x, Num y => Num (x + y)
  | _, _ => NaN
  end.

(** A string: its UTF-16 code units, each in 0..65535. *)
Definition jsstring : Type := list Z.

(** The code units of an ASCII literal. *)
Definition str (s : string) : jsstring :=
  (fun a => Z.of_N (Ascii.N_of_ascii a)) <$> String.list_ascii_of_string s.

End JS.

Import JS.

(** ** bloomLogic.ts *)

(** [fnv1a(str, seed)], lines 8-15. *)
Definition fnv1a (str : jsstring) (seed : Z) : Z :=
  toUint32
    (fold_left (fun hash c => imul (xor hash c) 16777619)
               str (xor 2166136261 seed)).

(** One turn of the loop of lines 21-25: the index pushed for [i]. *)
Definition hashIndex (h1 h2 size i : Z) : jsval :=
  let combinedHash := toUint32 (round53 (h1 + round53 (i * h2))) in
  rem combinedHash size.

(** [getHashIndices(input, size, k)], lines 4-28: one index per
    [i = 0, 1, ..., k - 1], in that order. *)
Definition getHashIndices (input : jsstring) (size k : Z) : list jsval :=
  let h1 := fnv1a input 0x811c9dc5 in
  let h2 := fnv1a input 0x9e3779b9 in
  hashIndex h1 h2 size <$> seqZ 0 k.

(** ** The double-hashing reference, after the words of the specification *)

Module Reference.

(** FNV-1a on unsigned 32-bit words: start from [2166136261 XOR seed]; per
    code unit, XOR it in, then multiply by 16777619 modulo 2^32. *)
Definition FNV1a (input : jsstring) (seed : Z) : Z :=
  fold_left (fun hash c => (Z.lxor hash c * 16777619) mod 2 ^ 32)
            input (Z.lxor 2166136261 seed).

Definition h1 (input : jsstring) : Z := FNV1a input 0x811c9dc5.
Definition h2 (input : jsstring) : Z := FNV1a input 0x9e3779b9.

(** [index_i = ((h1 + i * h2) mod 2^32) mod capacity], in exact integer
    arithmetic. *)
Definition index (input : jsstring) (capacity i : Z) : Z :=
  ((h1 input + i * h2 input) mod 2 ^ 32) mod capacity.

(** [index_0, ..., index_(hashCount - 1)] *)
Definition hashIndices (input : jsstring) (capacity hashCount : Z) : list Z :=
  index input capacity <$> seqZ 0 hashCount.

End Reference.

(** ** Strings and arrays as App.tsx uses them *)

(** WhiteSpace and LineTerminator code units, what [trim] strips. *)
Definition isWhiteSpace (c : Z) : bool :=
  bool_decide (c ∈ [9; 10; 11; 12; 13; 32; 160; 5760; 8232; 8233; 8239;
                    8287; 12288; 65279])
  || ((8192 <=? c) && (c <=? 8202)).

Fixpoint trimStart (s : jsstring) : jsstring :=
  match s with
  | c :: s' => if isWhiteSpace c then trimStart s' else s
  | [] => []
  end.

(** [s.trim()] *)
Definition trim (s : jsstring) : jsstring :=
  reverse (trimStart (reverse (trimStart s))).

(** [!s]: the empty string is the only falsy one. *)
Definition isEmpty (s : jsstring) : bool :=
  match s with [] => true | _ => false end.

(** [items.includes(word)] *)
Definition includes (items : list jsstring) (word : jsstring) : bool :=
  bool_decide (word ∈ items).

(** [items.indexOf(word)]: the first position of [word], or -1. *)
Fixpoint indexOf (items : list jsstring) (word : jsstring) : Z :=
  match items with
  | [] => -1
  | w :: rest =>
      if decide (w = word) then 0
      else let i := indexOf rest word in
           if i =? -1 then -1 else i + 1
  end.

(** [newItems.splice(i, 1)] for an index [0 <= i]. *)
Definition splice1 (i : Z) (l : list jsstring) : list jsstring :=
  take (Z.to_nat i) l ++ drop (S (Z.to_nat i)) l.

(** [arr[idx]].  A subscript that is no element index ([NaN], a negative
    number) names an ordinary property, which here holds [undefined] or
    [NaN]; both answer [false] to [=== 0] and to [> 0], and the read is
    modelled as [Undefined]. *)
Definition getCell (arr : list jsval) (idx : jsval) : jsval :=
  match idx with
  | Num i => if bool_decide (0 ≤ i)
             then default Undefined (arr !! Z.to_nat i)
             else Undefined
  | _ => Undefined
  end.

(** [newBits[idx]++], line 40.  In range the cell is incremented; past the
    end the array grows, the gap reads [undefined] and the new cell holds
    [undefined + 1 = NaN]; a subscript that is no element index (the
    largest one is 2^32 - 2) leaves the elements alone. *)
Definition incrementCell (newBits : list jsval) (idx : jsval) : list jsval :=
  match idx with
  | Num i =>
      if bool_decide (0 ≤ i < 2 ^ 32 - 1) then
        if bool_decide (i < Z.of_nat (length newBits))
        then alter incr (Z.to_nat i) newBits
        else newBits
             ++ replicate (Z.to_nat i - length newBits) Undefined ++ [NaN]
      else newBits
  | _ => newBits
  end.

(** [if (newBits[idx] > 0) newBits[idx]--], line 100. *)
Definition decrementCell (newBits : list jsval) (idx : jsval) : list jsval :=
  if gt0 (getCell newBits idx) then
    match idx with
    | Num i => alter decr (Z.to_nat i) newBits
    | _ => newBits
    end
  else newBits.

(** [Array(size).fill(0)]: a [RangeError] unless [size] is an array
    length. *)
Definition newArray (size : Z) : option (list jsval) :=
  if bool_decide (0 ≤ size < 2 ^ 32)
  then Some (replicate (Z.to_nat size) (Num 0))
  else None.

(** ** types.ts *)

Module OperationType.
Inductive t : Set := insert | check | delete | idle.
End OperationType.

Record OperationResult : Type := {
  type : OperationType.t;
  word : jsstring;
  indices : list jsval;
  isMatch : bool;
  isFalsePositive : bool;
  missingIndices : option (list jsval);
  timestamp : Z
}.

(** ** App.tsx: state and handlers *)

(** The [useState] cells of the component, and the messages shown so far
    by [alert]. *)
Record AppState : Type := {
  size : Z;
  hashCount : Z;
  bitArray : list jsval;
  items : list jsstring;
  inputValue : jsstring;
  lastOperation : option OperationResult;
  alerts : list jsstring
}.

Definition DEFAULT_SIZE : Z := 20.
Definition DEFAULT_HASHES : Z := 3.

(** The state of the first render, lines 11-20. *)
Definition initialState : AppState :=
  {| size := DEFAULT_SIZE; hashCount := DEFAULT_HASHES;
     bitArray := replicate (Z.to_nat DEFAULT_SIZE) (Num 0); items := [];
     inputValue := []; lastOperation := None; alerts := [] |}.

(** [setInputValue(v)], the text box. *)
Definition setInputValue (v : jsstring) (st : AppState) : AppState :=
  {| size := size st; hashCount := hashCount st; bitArray := bitArray st;
     items := items st; inputValue := v;
     lastOperation := lastOperation st; alerts := alerts st |}.

(** The reset of lines 23-27 (and of the RESET button, line 173). *)
Definition resetSimulation (st : AppState) : option AppState :=
  bits ← newArray (size st);
  Some {| size := size st; hashCount := hashCount st; bitArray := bits;
          items := []; inputValue := inputValue st; lastOperation := None;
          alerts := alerts st |}.

(** [setSize(m)] and [setHashCount(k)] followed by the reset effect they
    trigger: how a filter of configuration [(m, k)] comes to be.  There is
    no other constructor. *)
Definition configure (m k : Z) (st : AppState) : option AppState :=
  resetSimulation
    {| size := m; hashCount := k; bitArray := bitArray st; items := items st;
       inputValue := inputValue st; lastOperation := lastOperation st;
       alerts := alerts st |}.

(** The configurations that the sliders of lines 153-171 offer: a size of
    10, 20, ..., 200 and a hash count of 1, ..., 10. *)
Definition sizeOffered (v : Z) : bool :=
  (10 <=? v) && (v <=? 200) && (v mod 10 =? 0).

Definition hashCountOffered (v : Z) : bool := (1 <=? v) && (v <=? 10).

(** [handleInsert], lines 30-56.  [now] is what [Date.now()] returns. *)
Definition handleInsert (now : Z) (st : AppState) : AppState :=
  if isEmpty (trim (inputValue st)) then st
  else
    let word := trim (inputValue st) in
    let indices := getHashIndices word (size st) (hashCount st) in
    let newBits := fold_left incrementCell indices (bitArray st) in
    {| size := size st; hashCount := hashCount st;
       bitArray := newBits;
       items := items st ++ [word];
       inputValue := [];
       lastOperation :=
         Some {| type := OperationType.insert; word := word;
                 indices := indices; isMatch := true;
                 isFalsePositive := false; missingIndices := None;
                 timestamp := now |};
       alerts := alerts st |}.

(** [handleCheck], lines 59-83. *)
Definition handleCheck (now : Z) (st : AppState) : AppState :=
  if isEmpty (trim (inputValue st)) then st
  else
    let word := trim (inputValue st) in
    let indices := getHashIndices word (size st) (hashCount st) in
    let missingIndices :=
      List.filter (fun idx => strictEq0 (getCell (bitArray st) idx)) indices in
    let isMatch := Nat.eqb (length missingIndices) 0 in
    let actuallyExists := includes (items st) word in
    let isFalsePositive := isMatch && negb actuallyExists in
    {| size := size st; hashCount := hashCount st;
       bitArray := bitArray st; items := items st;
       inputValue := inputValue st;
       lastOperation :=
         Some {| type := OperationType.check; word := word;
                 indices := indices; isMatch := isMatch;
                 isFalsePositive := isFalsePositive;
                 missingIndices := Some missingIndices;
                 timestamp := now |};
       alerts := alerts st |}.

(** The text of the alert of line 91. *)
Definition notInSetMessage (word : jsstring) : jsstring :=
  [34] ++ word ++ [34] ++ str " is not in the set, cannot delete.".

(** [handleDelete], lines 86-122. *)
Definition handleDelete (now : Z) (st : AppState) : AppState :=
  if isEmpty (trim (inputValue st)) then st
  else
    let word := trim (inputValue st) in
    if negb (includes (items st) word) then
      {| size := size st; hashCount := hashCount st;
         bitArray := bitArray st; items := items st;
         inputValue := inputValue st; lastOperation := lastOperation st;
         alerts := alerts st ++ [notInSetMessage word] |}
    else
      let indices := getHashIndices word (size st) (hashCount st) in
      let newBits := fold_left decrementCell indices (bitArray st) in
      let itemIndex := indexOf (items st) word in
      let newItems :=
        if -1 <? itemIndex then splice1 itemIndex (items st) else items st in
      {| size := size st; hashCount := hashCount st;
         bitArray := newBits;
         items := newItems;
         inputValue := [];
         lastOperation :=
           Some {| type := OperationType.delete; word := word;
                   indices := indices; isMatch := true;
                   isFalsePositive := false; missingIndices := None;
                   timestamp := now |};
         alerts := alerts st |}.

(** ** Runs of the filter *)

(** A user action: the text typed into the box, the button pressed, and
    the clock reading at that moment.  [Insert x], [Check x] and [Delete x]
    are the operations of the filter on the item [x]. *)
Inductive action : Type :=
| Insert (input : jsstring) (now : Z)
| Check (input : jsstring) (now : Z)
| Delete (input : jsstring) (now : Z).

Definition perform (st : AppState) (a : action) : AppState :=
  match a with
  | Insert input now => handleInsert now (setInputValue input st)
  | Check input now => handleCheck now (setInputValue input st)
  | Delete input now => handleDelete now (setInputValue input st)
  end.

Definition run (acts : list action) (st : AppState) : AppState :=
  fold_left perform acts st.

(** The states a filter of configuration [(m, k)] goes through. *)
Inductive reachable (m k : Z) : AppState → Prop :=
| reachable_fresh st0 st :
    configure m k st0 = Some st → reachable m k st
| reachable_step st a :
    reachable m k st → reachable m k (perform st a).


(** ** Notions used to state the properties *)

(** How often the cell [j] occurs among the subscripts [idxs]. *)
Definition occurrences (j : nat) (idxs : list jsval) : nat :=
  length (filter (fun idx => idx = Num (Z.of_nat j)) idxs).

(** The number of times the members [items] of a filter of configuration
    [(m, k)] hash to the cell [j]. *)
Definition load (m k : Z) (items : list jsstring) (j : nat) : nat :=
  sum_list_with (fun w => occurrences j (getHashIndices w m k)) items.

(** The sum of all counters. *)
Definition sumCounters (arr : list jsval) : jsval := foldr add (Num 0) arr.

(** A counter that holds an integer [0 <= z]. *)
Definition nonNegative (v : jsval) : Prop := ∃ z, v = Num z ∧ 0 ≤ z.

(** The number of entries of [items] equal to [w]. *)
Definition multiplicity (w : jsstring) (items : list jsstring) : Z :=
  Z.of_nat (length (filter (fun x => x = w) items)).

(** What one action adds to the net count of the item [w]: an insertion
    counts when it is carried out for [w], a deletion when it is carried
    out for [w] and succeeds. *)
Definition netEffect (w : jsstring) (st : AppState) (a : action) : Z :=
  match a with
  | Insert input _ =>
      if bool_decide (trim input = w) && negb (isEmpty w) then 1 else 0
  | Delete input _ =>
      if bool_decide (trim input = w) && negb (isEmpty w)
         && includes (items st) w then -1 else 0
  | Check _ _ => 0
  end.

(** Insertions of [w] minus successful deletions of [w] along the run of
    [acts] from [st]. *)
Fixpoint netCount (w : jsstring) (acts : list action) (st : AppState) : Z :=
  match acts with
  | [] => 0
  | a :: rest => netEffect w st a + netCount w rest (perform st a)
  end.

(** A subscript produced for an array of [n] cells: an element index, or
    [NaN] when the capacity is 0. *)
Definition validIndex (n : nat) (idx : jsval) : Prop :=
  idx = NaN ∨ ∃ j, idx = Num (Z.of_nat j) ∧ (j < n)%nat.

(** The representation invariant of a filter of configuration [(m, k)]:
    one counter per slot, each holding the load of its slot, and only
    non-empty words among the members. *)
Record Inv (m k : Z) (st : AppState) : Prop := {
  inv_size : size st = m;
  inv_hashCount : hashCount st = k;
  inv_capacity : 0 ≤ m < 2 ^ 32;
  inv_length : length (bitArray st) = Z.to_nat m;
  inv_cells : ∀ j, (j < Z.to_nat m)%nat →
      bitArray st !! j = Some (Num (Z.of_nat (load m k (items st) j)));
  inv_items : ∀ w, w ∈ items st → w ≠ []
}.

(** ** App.tsx: statistics *)

(** [bitArray.filter(b => b > 0).length], line 125. *)
Definition filledBits (st : AppState) : Z :=
  Z.of_nat (length (List.filter gt0 (bitArray st))).

(** ** More notions used to state the properties *)

(** The text typed for an action. *)
Definition actionInput (a : action) : jsstring :=
  match a with
  | Insert input _ | Check input _ | Delete input _ => input
  end.

(** Two states that differ at most in the content of the text box. *)
Definition sameFilter (st st' : AppState) : Prop :=
  size st = size st' ∧ hashCount st = hashCount st'
  ∧ bitArray st = bitArray st' ∧ items st = items st'
  ∧ lastOperation st = lastOperation st' ∧ alerts st = alerts st'.

(** The same button pressed at the same moment, whatever the text. *)
Definition sameButton (a a' : action) : Prop :=
  match a, a' with
  | Insert _ t, Insert _ t' | Check _ t, Check _ t' | Delete _ t, Delete _ t' =>
      t = t'
  | _, _ => False
  end.

(** The last record describes the state it is shown with: its indices are
    those of its word, and for a check the verdict is the one the present
    counters and members give. *)
Definition recordInSync (m k : Z) (st : AppState) (r : OperationResult)
  : Prop :=
  word r ≠ [] ∧ indices r = getHashIndices (word r) m k
  ∧ match type r with
    | OperationType.check =>
        let missing :=
          List.filter (fun idx => strictEq0 (getCell (bitArray st) idx))
                      (indices r) in
        missingIndices r = Some missing
        ∧ isMatch r = Nat.eqb (length missing) 0
        ∧ isFalsePositive r = isMatch r && negb (includes (items st) (word r))
    | OperationType.insert =>
        isMatch r = true ∧ isFalsePositive r = false
        ∧ missingIndices r = None ∧ word r ∈ items st
    | OperationType.delete =>
        isMatch r = true ∧ isFalsePositive r = false
        ∧ missingIndices r = None
    | OperationType.idle => False
    end.

(** ** components/Simulation.tsx (lines 300-596 of App.tsx) *)

Module Simulation.

Definition COLOR_OFF : jsstring := str "#222222".
Definition COLOR_ON : jsstring := str "#00f3ff".
Definition COLOR_CHECK_MATCH : jsstring := str "#00ff66".
Definition COLOR_CHECK_MISS : jsstring := str "#ff0055".
Definition COLOR_FALSE_POSITIVE : jsstring := str "#ffaa00".
Definition COLOR_DELETE : jsstring := str "#aa00ff".

(** [BitBox], lines 341-365: the colour and the emissive intensity that the
    box of the cell [index], holding [count], is driven to. *)
Definition BitBox_target (index : Z) (count : jsval)
    (operation : option OperationResult) : jsstring * Q :=
  let isTargeted :=
    match operation with
    | Some op => bool_decide (Num index ∈ indices op)
    | None => false
    end in
  let targetColor := if gt0 count then COLOR_ON else COLOR_OFF in
  let emissiveIntensity := if gt0 count then 0.5%Q else 0%Q in
  match operation with
  | Some op =>
      if isTargeted then
        match type op with
        | OperationType.check =>
            if isFalsePositive op then (COLOR_FALSE_POSITIVE, 2.0%Q)
            else if gt0 count then (COLOR_CHECK_MATCH, 1.5%Q)
            else (COLOR_CHECK_MISS, 1.5%Q)
        | OperationType.insert => (COLOR_ON, 2.0%Q)
        | OperationType.delete => (COLOR_DELETE, 1.5%Q)
        | OperationType.idle => (targetColor, emissiveIntensity)
        end
      else (targetColor, emissiveIntensity)
  | None => (targetColor, emissiveIntensity)
  end.

(** [ConnectionBeams], lines 454-459: the colour of the beams. *)
Definition ConnectionBeams_color (operation : OperationResult) : jsstring :=
  match type operation with
  | OperationType.check =>
      if isFalsePositive operation then COLOR_FALSE_POSITIVE
      else if isMatch operation then COLOR_CHECK_MATCH
      else COLOR_CHECK_MISS
  | OperationType.delete => COLOR_DELETE
  | _ => COLOR_ON
  end.

(** ["${word}"] between double quotes. *)
Definition quoted (word : jsstring) : jsstring := [34] ++ word ++ [34].

(** [FloatingLabel], lines 480-497: [displayText] once the effect has run;
    of the calls of [setDisplayText] the last one stands. *)
Definition FloatingLabel_displayText (operation : OperationResult)
  : jsstring :=
  let prefix := [] in
  let prefix :=
    match type operation with
    | OperationType.insert => str "INSERTING" | _ => prefix end in
  let prefix :=
    match type operation with
    | OperationType.check => str "CHECKING" | _ => prefix end in
  let prefix :=
    match type operation with
    | OperationType.delete => str "DELETING" | _ => prefix end in
  let displayText := prefix ++ str ": " ++ quoted (word operation) in
  match type operation with
  | OperationType.check =>
      if isFalsePositive operation
      then str "FALSE POSITIVE: " ++ quoted (word operation)
      else if isMatch operation
      then str "FOUND: " ++ quoted (word operation)
      else str "NOT FOUND: " ++ quoted (word operation)
  | _ => displayText
  end.

(** [FloatingLabel], line 500: the colour of the label. *)
Definition FloatingLabel_color (operation : OperationResult) : jsstring :=
  if isFalsePositive operation then COLOR_FALSE_POSITIVE else str "#ffffff".

(** [SimulationScene], lines 560-568: one box per cell of the array, each
    with its position as index, its counter, and the last operation. *)
Definition SimulationScene_boxes (st : AppState) : list (jsstring * Q) :=
  imap (fun i count => BitBox_target (Z.of_nat i) count (lastOperation st))
       (bitArray st).

End Simulation.

(** ** JavaScript numbers that are not integers

    IEEE 754 binary64 with round to nearest, ties to even, as specified by
    [SpecFloat]. *)

Module Double.

Definition double : Type := spec_float.

Definition ofZ (n : Z) : double := binary_normalize 53 1024 n 0 false.

Definition add : double → double → double := SFadd 53 1024.
Definition sub : double → double → double := SFsub 53 1024.
Definition mul : double → double → double := SFmul 53 1024.
Definition div : double → double → double := SFdiv 53 1024.

(** The integer [Math.floor] rounds a finite double down to. *)
Definition floorZ (x : double) : option Z :=
  match x with
  | S754_zero _ => Some 0
  | S754_finite s m e =>
      let v := if s then Z.neg m else Z.pos m in
      Some (if 0 <=? e then v * 2 ^ e else v / 2 ^ (- e))
  | _ => None
  end.

(** [Math.floor(x)] *)
Definition floor (x : double) : double :=
  match x, floorZ x with
  | S754_finite _ _ _, Some z => ofZ z
  | _, _ => x
  end.

(** [Math.ceil(x)], for [x] that does not round to [-0]. *)
Definition ceil (x : double) : double :=
  match x, floorZ (SFopp x) with
  | S754_finite _ _ _, Some z => ofZ (- z)
  | _, _ => x
  end.

(** The rational that a finite double is. *)
Definition toQ (x : double) : option Q :=
  match x with
  | S754_zero _ => Some 0%Q
  | S754_finite s m e =>
      let v := if s then Z.neg m else Z.pos m in
      Some (if 0 <=? e then inject_Z (v * 2 ^ e)
            else Qmake v (Z.to_pos (2 ^ (- e))))
  | _ => None
  end.

End Double.

(** ** components/Simulation.tsx: the grid *)

Module Grid.

Import Double.

(** The decimal literals [0.8] and [0.2]: the doubles nearest to 8/10 and
    2/10. *)
Definition BOX_SIZE : double := div (ofZ 8) (ofZ 10).
Definition GAP : double := div (ofZ 2) (ofZ 10).
Definition ROW_LENGTH : Z := 10.

(** [Math.ceil(totalSize / ROW_LENGTH)], line 334. *)
Definition rows (totalSize : Z) : double :=
  ceil (div (ofZ totalSize) (ofZ ROW_LENGTH)).

(** [BitBox], lines 330-338 and 385: where the box of the cell [index] of
    a grid for [totalSize] cells stands, as [(x - offsetX, z - offsetZ)]. *)
Definition BitBox_position (index totalSize : Z) : double * double :=
  let x := mul (ofZ (Z.rem index ROW_LENGTH)) (add BOX_SIZE GAP) in
  let z := mul (floor (div (ofZ index) (ofZ ROW_LENGTH))) (add BOX_SIZE GAP) in
  let offsetX :=
    div (mul (ofZ (ROW_LENGTH - 1)) (add BOX_SIZE GAP)) (ofZ 2) in
  let offsetZ :=
    div (mul (sub (rows totalSize) (ofZ 1)) (add BOX_SIZE GAP)) (ofZ 2) in
  (sub x offsetX, sub z offsetZ).

(** Whether the box of the cell [index] stands at
    [(col - 9/2, row - (rows - 1)/2)], for its column [index mod 10], its
    row [index / 10] and the [totalSize / 10] rows of the grid. *)
Definition positionOk (totalSize index : Z) : bool :=
  match BitBox_position index totalSize with
  | (px, pz) =>
      match toQ px, toQ pz with
      | Some qx, Some qz =>
          Qeq_bool qx (Qminus (inject_Z (index mod 10)) (Qmake 9 2))
          && Qeq_bool qz
               (Qminus (inject_Z (index / 10))
                       (Qmake (totalSize / 10 - 1) 2))
      | _, _ => false
      end
  end.

End Grid.

(** ** bloomLogic.ts and App.tsx: the rates *)

Module Rates.

Import Double.

(** [calculateFalsePositiveRate(m, k, n)], bloomLogic.ts lines 30-34:
    [Math.pow(1 - Math.exp(-k * n / m), k)].  [Math.exp] and [Math.pow]
    are the engine's; they are arguments here. *)
Definition calculateFalsePositiveRate
    (Math_exp : double → double) (Math_pow : double → double → double)
    (m k n : Z) : double :=
  Math_pow
    (sub (ofZ 1) (Math_exp (div (mul (SFopp (ofZ k)) (ofZ n)) (ofZ m))))
    (ofZ k).

(** [fpRate], App.tsx line 127. *)
Definition fpRate (Math_exp : double → double)
    (Math_pow : double → double → double) (st : AppState) : double :=
  calculateFalsePositiveRate Math_exp Math_pow (size st) (hashCount st)
                             (Z.of_nat (length (items st))).

(** [fillRate = filledBits / size], App.tsx line 126. *)
Definition fillRate (st : AppState) : double :=
  div (ofZ (filledBits st)) (ofZ (size st)).

(** Whether [filled / size] is a double in [0, 1] that is 0 only for
    [filled = 0] and 1 only for [filled = size]. *)
Definition fillRateOk (size filled : Z) : bool :=
  match toQ (div (ofZ filled) (ofZ size)) with
  | Some q =>
      Qle_bool 0 q && Qle_bool q 1
      && Bool.eqb (Qeq_bool q 0) (filled =? 0)
      && Bool.eqb (Qeq_bool q 1) (filled =? size)
  | None => false
  end.

(** Whether the argument that [calculateFalsePositiveRate] passes to
    [Math.exp] for [n = 0] is a zero, and [k] a double above 0. *)
Definition zeroRateOk (m k : Z) : bool :=
  match div (mul (SFopp (ofZ k)) (ofZ 0)) (ofZ m) with
  | S754_zero _ => SFltb (S754_zero false) (ofZ k)
  | _ => false
  end.

End Rates.


(** ** Rounding to a double, over the reals *)

Module Rounding.

(** [2^e], for an integer [e] of either sign. *)
Definition pow2 (e : Z) : R := powerRZ 2 e.

#[global] Arguments pow2 : simpl never.



(** [z] is the integer nearest to [t], the even one of the two when [t]
    is half way. *)
Definition nearestEven (t : R) (z : Z) : Prop :=
  (IZR z - / 2 <= t <= IZR z + / 2)%R
  ∧ (t = (IZR z - / 2)%R ∨ t = (IZR z + / 2)%R → Z.even z = true).

(** The exponent of the doubles around [x >= 0]: -1074 below [2^-1021]
    (the subnormal numbers and the first binade), [c] with
    [2^(c+52) <= x < 2^(c+53)] above. *)
Definition binade (x : R) (c : Z) : Prop :=
  (c = -1074 ∧ (x < pow2 (-1021))%R)
  ∨ (-1074 < c ∧ (pow2 (c + 52) <= x < pow2 (c + 53))%R).

(** The double of sign [s] and value [z * 2^c], for [0 <= z <= 2^53]. *)
Definition pack (s : bool) (z c : Z) : spec_float :=
  if z =? 2 ^ 53 then
    if c + 1 <=? 971 then S754_finite s (2 ^ 52)%positive (c + 1)
    else S754_infinity s
  else
    match z with
    | Z.pos m => if c <=? 971 then S754_finite s m c else S754_infinity s
    | _ => S754_zero s
    end.

(** [f] is [x >= 0] rounded to nearest, ties to even, with the sign [s]. *)
Definition rounded (s : bool) (x : R) (f : spec_float) : Prop :=
  ∃ c z, binade x c ∧ nearestEven (x / pow2 c) z ∧ f = pack s z c.

(** [f] is the real [v] rounded to a double. *)
Definition roundedR (v : R) (f : spec_float) : Prop :=
  (v = 0%R ∧ ∃ s, f = S754_zero s)
  ∨ ((0 < v)%R ∧ rounded false v f)
  ∨ ((v < 0)%R ∧ rounded true (- v) f).




End Rounding.

(** * Properties *)

(** ** 32-bit arithmetic *)

Section Arithmetic32.

Lemma toInt32_mod z : toInt32 z mod 2 ^ 32 = z mod 2 ^ 32.
Proof.
  unfold toInt32.
  rewrite <- Zminus_mod_idemp_l, Z.mod_mod by lia.
  rewrite Zminus_mod_idemp_l. f_equal. lia.
Qed.

Lemma lxor_mod_pow2 a b n :
  0 ≤ n → Z.lxor a b mod 2 ^ n = Z.lxor (a mod 2 ^ n) (b mod 2 ^ n).
Proof.
  intros Hn. apply Z.bits_inj'. intros i Hi.
  destruct (decide (i < n)) as [Hlt|Hge].
  - rewrite Z.mod_pow2_bits_low, !Z.lxor_spec, !Z.mod_pow2_bits_low by lia.
    reflexivity.
  - rewrite Z.mod_pow2_bits_high, Z.lxor_spec, !Z.mod_pow2_bits_high by lia.
    reflexivity.
Qed.

Lemma lxor_mod_congr a a' b b' :
  a mod 2 ^ 32 = a' mod 2 ^ 32 →
  b mod 2 ^ 32 = b' mod 2 ^ 32 →
  Z.lxor a b mod 2 ^ 32 = Z.lxor a' b' mod 2 ^ 32.
Proof.
  intros Ha Hb. rewrite !(lxor_mod_pow2 _ _ 32) by lia. congruence.
Qed.

Lemma xor_mod a b : xor a b mod 2 ^ 32 = Z.lxor a b mod 2 ^ 32.
Proof. apply lxor_mod_congr; apply toInt32_mod. Qed.

Lemma imul_mod a b : imul a b mod 2 ^ 32 = (a * b) mod 2 ^ 32.
Proof.
  unfold imul. rewrite toInt32_mod.
  rewrite Zmult_mod, !toInt32_mod, <- Zmult_mod. reflexivity.
Qed.

(** One turn of the source's loop and one turn of the reference's agree
    modulo 2^32. *)
Lemma fnv1a_step s h c :
  s mod 2 ^ 32 = h mod 2 ^ 32 →
  imul (xor s c) 16777619 mod 2 ^ 32
  = ((Z.lxor h c * 16777619) mod 2 ^ 32) mod 2 ^ 32.
Proof.
  intros Hsh. rewrite imul_mod, Z.mod_mod by lia.
  rewrite Zmult_mod, xor_mod, (lxor_mod_congr s h c c), <- Zmult_mod by done.
  reflexivity.
Qed.

Lemma fnv1a_fold input : ∀ s h,
  s mod 2 ^ 32 = h mod 2 ^ 32 →
  fold_left (fun hash c => imul (xor hash c) 16777619) input s mod 2 ^ 32
  = fold_left (fun hash c => (Z.lxor hash c * 16777619) mod 2 ^ 32) input h
    mod 2 ^ 32.
Proof.
  induction input as [|c input IH]; intros s h Hsh; simpl; [done|].
  apply IH, fnv1a_step, Hsh.
Qed.

Lemma FNV1a_fold_range input : ∀ h,
  0 ≤ h < 2 ^ 32 →
  0 ≤ fold_left (fun hash c => (Z.lxor hash c * 16777619) mod 2 ^ 32) input h
    < 2 ^ 32.
Proof.
  induction input as [|c input IH]; intros h Hh; simpl; [done|].
  apply IH, Z.mod_pos_bound. lia.
Qed.

Lemma h1_range input : 0 ≤ Reference.h1 input < 2 ^ 32.
Proof. apply FNV1a_fold_range. vm_compute. split; [discriminate|done]. Qed.

Lemma h2_range input : 0 ≤ Reference.h2 input < 2 ^ 32.
Proof. apply FNV1a_fold_range. vm_compute. split; [discriminate|done]. Qed.

(** The source's hash is the reference hash, for both seeds. *)
Lemma fnv1a_h1 input : fnv1a input 0x811c9dc5 = Reference.h1 input.
Proof.
  unfold fnv1a, toUint32, Reference.h1, Reference.FNV1a.
  rewrite (fnv1a_fold input _ (Z.lxor 2166136261 0x811c9dc5)) by apply xor_mod.
  apply Z.mod_small, h1_range.
Qed.

Lemma fnv1a_h2 input : fnv1a input 0x9e3779b9 = Reference.h2 input.
Proof.
  unfold fnv1a, toUint32, Reference.h2, Reference.FNV1a.
  rewrite (fnv1a_fold input _ (Z.lxor 2166136261 0x9e3779b9)) by apply xor_mod.
  apply Z.mod_small, h2_range.
Qed.

Lemma round53_exact z : Z.abs z < 2 ^ 53 → round53 z = z.
Proof.
  intros Hz. unfold round53.
  destruct (Z.ltb_spec (Z.abs z) (2 ^ 53)); [done|lia].
Qed.

(** From 2^53 on only every second integer is a double; a tie goes to the
    even significand. *)
Example round53_ties_to_even :
  round53 (2 ^ 53 + 1) = 2 ^ 53
  ∧ round53 (2 ^ 53 + 2) = 2 ^ 53 + 2
  ∧ round53 (2 ^ 53 + 3) = 2 ^ 53 + 4
  ∧ round53 (2 ^ 54 + 2) = 2 ^ 54.
Proof. vm_compute. repeat split. Qed.

(** Below 2^21 turns the sum [h1 + i * h2] is a double, and the index of
    the source is the reference index. *)
Lemma hashIndex_exact input m i :
  1 ≤ m → 0 ≤ i < 2 ^ 21 →
  hashIndex (Reference.h1 input) (Reference.h2 input) m i
  = Num (Reference.index input m i).
Proof.
  intros Hm Hi.
  pose proof (h1_range input) as H1. pose proof (h2_range input) as H2.
  unfold hashIndex, Reference.index, toUint32, rem.
  rewrite (round53_exact (i * _)) by nia.
  rewrite round53_exact by nia.
  destruct (Z.eqb_spec m 0) as [->|_]; [lia|].
  rewrite Z.rem_mod_nonneg; [done| |lia].
  apply Z.mod_pos_bound. lia.
Qed.

(** Whatever the rounding, an index for a capacity [1 <= m] lies in
    [0, m). *)
Lemma hashIndex_range h1 h2 m i :
  1 ≤ m → ∃ j, hashIndex h1 h2 m i = Num j ∧ 0 ≤ j < m.
Proof.
  intros Hm. unfold hashIndex, toUint32, rem.
  destruct (Z.eqb_spec m 0) as [->|_]; [lia|].
  eexists; split; [done|].
  rewrite Z.rem_mod_nonneg; [apply Z.mod_pos_bound; lia| |lia].
  apply Z.mod_pos_bound. lia.
Qed.

End Arithmetic32.

(** ** getHashIndices *)

Lemma length_getHashIndices input m k :
  length (getHashIndices input m k) = Z.to_nat k.
Proof. unfold getHashIndices. rewrite length_fmap, length_seqZ. done. Qed.

Lemma getHashIndices_range input m k idx :
  1 ≤ m → idx ∈ getHashIndices input m k → ∃ j, idx = Num j ∧ 0 ≤ j < m.
Proof.
  intros Hm [i [-> _]]%list_elem_of_fmap.
  apply hashIndex_range, Hm.
Qed.

Lemma getHashIndices_zero_capacity input k :
  getHashIndices input 0 k = replicate (Z.to_nat k) NaN.
Proof.
  unfold getHashIndices, seqZ. rewrite <- list_fmap_compose.
  generalize 0%nat. induction (Z.to_nat k) as [|n IH]; intros s; simpl; [done|].
  rewrite IH. done.
Qed.

Lemma lookup_getHashIndices input m k (i : nat) :
  Z.of_nat i < k →
  getHashIndices input m k !! i
  = Some (hashIndex (fnv1a input 0x811c9dc5) (fnv1a input 0x9e3779b9) m
                    (Z.of_nat i)).
Proof.
  intros Hi. unfold getHashIndices.
  rewrite list_lookup_fmap, lookup_seqZ_lt by done. done.
Qed.

(** ** Array cells *)

Section Cells.

Implicit Types (arr : list jsval) (idx : jsval) (j : nat).

Lemma occurrences_nil j : occurrences j [] = 0%nat.
Proof. done. Qed.

Lemma occurrences_cons j idx idxs :
  occurrences j (idx :: idxs)
  = ((if decide (idx = Num (Z.of_nat j)) then 1 else 0)
     + occurrences j idxs)%nat.
Proof.
  unfold occurrences. rewrite filter_cons.
  destruct (decide (idx = Num (Z.of_nat j))); done.
Qed.

Lemma getCell_Num arr j : getCell arr (Num (Z.of_nat j))
                          = default Undefined (arr !! j).
Proof.
  unfold getCell. rewrite bool_decide_eq_true_2 by lia.
  rewrite Nat2Z.id. done.
Qed.

Lemma length_incrementCell arr idx :
  validIndex (length arr) idx → length (incrementCell arr idx) = length arr.
Proof.
  intros [->|(j & -> & Hj)]; [done|]. unfold incrementCell.
  case_bool_decide; [|done].
  rewrite bool_decide_eq_true_2 by lia. apply length_alter.
Qed.

Lemma lookup_incrementCell arr idx j c :
  Z.of_nat (length arr) < 2 ^ 32 →
  validIndex (length arr) idx →
  arr !! j = Some (Num c) →
  incrementCell arr idx !! j
  = Some (Num (c + (if decide (idx = Num (Z.of_nat j)) then 1 else 0))).
Proof.
  intros Hlen [->|(i & -> & Hi)] Hj.
  { rewrite decide_False by done. rewrite Z.add_0_r. done. }
  unfold incrementCell. case_bool_decide.
  - rewrite bool_decide_eq_true_2 by lia. rewrite Nat2Z.id.
    destruct (decide (i = j)) as [->|Hne].
    + rewrite list_lookup_alter_eq, Hj, decide_True by done. done.
    + rewrite list_lookup_alter_ne, Hj by done.
      rewrite decide_False by (intros [= ?]; lia).
      rewrite Z.add_0_r. done.
  - lia.
Qed.

Lemma length_fold_incrementCell idxs : ∀ arr,
  Forall (validIndex (length arr)) idxs →
  length (fold_left incrementCell idxs arr) = length arr.
Proof.
  induction idxs as [|idx idxs IH]; intros arr Hv; simpl; [done|].
  inversion_clear Hv as [|? ? Hidx Hrest].
  rewrite IH; rewrite length_incrementCell; done.
Qed.

(** After the [forEach] of an insertion every counter has grown by the
    number of times its slot occurs among the indices. *)
Lemma lookup_fold_incrementCell idxs : ∀ arr j c,
  Z.of_nat (length arr) < 2 ^ 32 →
  Forall (validIndex (length arr)) idxs →
  arr !! j = Some (Num c) →
  fold_left incrementCell idxs arr !! j
  = Some (Num (c + Z.of_nat (occurrences j idxs))).
Proof.
  induction idxs as [|idx idxs IH]; intros arr j c Hlen Hv Hj; simpl.
  { rewrite Hj, Z.add_0_r. done. }
  inversion_clear Hv as [|? ? Hidx Hrest].
  rewrite (IH _ j (c + (if decide (idx = Num (Z.of_nat j)) then 1 else 0))).
  - rewrite occurrences_cons. f_equal. f_equal.
    destruct (decide (idx = Num (Z.of_nat j))); lia.
  - rewrite length_incrementCell; done.
  - rewrite length_incrementCell; done.
  - apply lookup_incrementCell; done.
Qed.

Lemma length_decrementCell arr idx :
  length (decrementCell arr idx) = length arr.
Proof.
  unfold decrementCell. destruct (gt0 _); [|done].
  destruct idx; [apply length_alter|done..].
Qed.

Lemma lookup_decrementCell arr idx j c :
  arr !! j = Some (Num c) →
  decrementCell arr idx !! j
  = Some (Num (if decide (idx = Num (Z.of_nat j) ∧ 0 < c)
               then c - 1 else c)).
Proof.
  intros Hj. unfold decrementCell.
  destruct (decide (idx = Num (Z.of_nat j) ∧ 0 < c)) as [[-> Hc]|Hn].
  - rewrite getCell_Num, Hj. simpl.
    rewrite (proj2 (Z.ltb_lt 0 c)) by done.
    rewrite Nat2Z.id, list_lookup_alter_eq, Hj. done.
  - destruct (gt0 (getCell arr idx)) eqn:Hg; [|done].
    destruct idx as [i| |]; [|done..].
    unfold getCell in Hg. case_bool_decide; [|done].
    destruct (decide (Z.to_nat i = j)) as [<-|Hne].
    + rewrite Hj in Hg. simpl in Hg. apply Z.ltb_lt in Hg.
      exfalso. apply Hn. split; [f_equal; lia|done].
    + rewrite list_lookup_alter_ne by done. done.
Qed.

Lemma length_fold_decrementCell idxs : ∀ arr,
  length (fold_left decrementCell idxs arr) = length arr.
Proof.
  induction idxs as [|idx idxs IH]; intros arr; simpl; [done|].
  rewrite IH. apply length_decrementCell.
Qed.

(** After the [forEach] of a deletion every counter has shrunk by the
    number of times its slot occurs among the indices, but not below 0. *)
Lemma lookup_fold_decrementCell idxs : ∀ arr j c,
  arr !! j = Some (Num c) → 0 ≤ c →
  fold_left decrementCell idxs arr !! j
  = Some (Num (Z.max 0 (c - Z.of_nat (occurrences j idxs)))).
Proof.
  induction idxs as [|idx idxs IH]; intros arr j c Hj Hc; simpl.
  { rewrite Hj. do 2 f_equal. rewrite occurrences_nil. lia. }
  pose proof (lookup_decrementCell arr idx j c Hj) as Hstep.
  rewrite (IH _ _ _ Hstep) by (case_decide; lia).
  rewrite occurrences_cons. do 2 f_equal.
  destruct (decide (idx = Num (Z.of_nat j) ∧ 0 < c)) as [[-> Hpos]|Hn].
  - rewrite decide_True by done. lia.
  - destruct (decide (idx = Num (Z.of_nat j))) as [->|Hne]; [|lia].
    assert (c = 0) as -> by (destruct (decide (0 < c)); [tauto|lia]). lia.
Qed.

End Cells.

(** ** The members list *)

Section Members.

Implicit Types (items : list jsstring) (w : jsstring).

Lemma indexOf_absent items w : w ∉ items → indexOf items w = (-1).
Proof.
  induction items as [|x items IH]; intros Hw; simpl; [done|].
  apply not_elem_of_cons in Hw as [Hne Hw].
  rewrite decide_False by done. rewrite IH by done. done.
Qed.

(** [indexOf] finds the first occurrence. *)
Lemma indexOf_present items w :
  w ∈ items →
  ∃ l1 l2, items = l1 ++ w :: l2 ∧ (w ∉ l1)
           ∧ indexOf items w = Z.of_nat (length l1).
Proof.
  induction items as [|x items IH]; intros Hw; [by apply elem_of_nil in Hw|].
  simpl. destruct (decide (x = w)) as [->|Hne].
  - exists [], items. split_and!; [done|apply not_elem_of_nil|done].
  - apply elem_of_cons in Hw as [->|Hw]; [done|].
    destruct (IH Hw) as (l1 & l2 & -> & Hl1 & Hidx).
    exists (x :: l1), l2. split_and!; [done| |].
    + apply not_elem_of_cons. done.
    + rewrite Hidx. destruct (Z.eqb_spec (Z.of_nat (length l1)) (-1)); [lia|].
      simpl. lia.
Qed.

Lemma splice1_middle (l1 l2 : list jsstring) w :
  splice1 (Z.of_nat (length l1)) (l1 ++ w :: l2) = l1 ++ l2.
Proof.
  unfold splice1. rewrite Nat2Z.id, take_app_length.
  rewrite (cons_middle w l1 l2), app_assoc.
  rewrite drop_app_length' by (rewrite length_app; simpl; lia). done.
Qed.

(** What lines 107-110 leave of the members when [w] is one of them. *)
Lemma remove_first items w :
  w ∈ items →
  ∃ l1 l2, items = l1 ++ w :: l2 ∧ (w ∉ l1)
           ∧ (if -1 <? indexOf items w
              then splice1 (indexOf items w) items else items) = l1 ++ l2.
Proof.
  intros (l1 & l2 & -> & Hl1 & Hidx)%indexOf_present.
  exists l1, l2. split_and!; [done..|].
  rewrite Hidx. destruct (Z.ltb_spec (-1) (Z.of_nat (length l1))); [|lia].
  apply splice1_middle.
Qed.

Lemma load_nil m k j : load m k [] j = 0%nat.
Proof. done. Qed.

Lemma load_app m k l1 l2 j :
  load m k (l1 ++ l2) j = (load m k l1 j + load m k l2 j)%nat.
Proof. apply sum_list_with_app. Qed.

Lemma load_cons m k w items j :
  load m k (w :: items) j
  = (occurrences j (getHashIndices w m k) + load m k items j)%nat.
Proof. done. Qed.

Lemma load_middle m k l1 l2 w j :
  load m k (l1 ++ w :: l2) j
  = (occurrences j (getHashIndices w m k) + load m k (l1 ++ l2) j)%nat.
Proof. rewrite !load_app, load_cons. lia. Qed.

Lemma multiplicity_nil w : multiplicity w [] = 0.
Proof. done. Qed.

Lemma multiplicity_app w l1 l2 :
  multiplicity w (l1 ++ l2) = multiplicity w l1 + multiplicity w l2.
Proof. unfold multiplicity. rewrite filter_app, length_app. lia. Qed.

Lemma multiplicity_cons w x items :
  multiplicity w (x :: items)
  = (if decide (x = w) then 1 else 0) + multiplicity w items.
Proof.
  unfold multiplicity. rewrite filter_cons.
  destruct (decide (x = w)); simpl; lia.
Qed.

Lemma multiplicity_pos w items : 0 < multiplicity w items ↔ w ∈ items.
Proof.
  induction items as [|x items IH].
  - rewrite multiplicity_nil. split; [lia|]. by intros ?%elem_of_nil.
  - rewrite multiplicity_cons, elem_of_cons.
    pose proof (Nat2Z.is_nonneg (length (filter (fun y => y = w) items))).
    unfold multiplicity in *.
    destruct (decide (x = w)) as [->|Hne]; split; try tauto; try lia.
    intros [->|Hin]; [done|]. apply IH in Hin. lia.
Qed.

End Members.

(** ** Filters and comparisons *)

Lemma filter_all_false {A} (f : A → bool) (l : list A) :
  (∀ x, x ∈ l → f x = false) ↔ List.filter f l = [].
Proof.
  induction l as [|x l IH]; simpl.
  - split; [done|]. by intros _ ? ?%elem_of_nil.
  - destruct (f x) eqn:Hx; split.
    + intros H. specialize (H x (list_elem_of_here _ _)). congruence.
    + done.
    + intros H. apply IH. intros y Hy. apply H. by apply elem_of_cons; right.
    + intros H y [->|Hy]%elem_of_cons; [done|]. by apply IH.
Qed.

Lemma filter_bool_decide {A} (f : A → bool) (P : A → Prop)
      `{!∀ x, Decision (P x)} (l : list A) :
  (∀ x, x ∈ l → f x = true ↔ P x) → List.filter f l = filter P l.
Proof.
  induction l as [|x l IH]; intros Hf; [done|].
  simpl. rewrite filter_cons.
  pose proof (Hf x (list_elem_of_here _ _)) as Hx.
  rewrite IH by (intros y Hy; apply Hf; by apply elem_of_cons; right).
  destruct (f x), (decide (P x)) as [HP|HP]; try done.
  - exfalso. apply HP, Hx. done.
  - apply Hx in HP. done.
Qed.

Lemma strictEq0_iff v : strictEq0 v = true ↔ v = Num 0.
Proof.
  destruct v as [z| |]; simpl; [|done..].
  rewrite Z.eqb_eq. split; [by intros ->|by intros [= ->]].
Qed.

(** ** The text box *)

Lemma isEmpty_false (s : jsstring) : isEmpty s = false ↔ s ≠ [].
Proof. destruct s; simpl; split; done. Qed.

Lemma isEmpty_true (s : jsstring) : isEmpty s = true ↔ s = [].
Proof. destruct s; simpl; split; done. Qed.

Lemma includes_true items w : includes items w = true ↔ w ∈ items.
Proof. unfold includes. apply bool_decide_eq_true. Qed.

Lemma includes_false items w : includes items w = false ↔ w ∉ items.
Proof. unfold includes. apply bool_decide_eq_false. Qed.

(** ** The representation invariant *)

Section Invariant.

Context (m k : Z).

Implicit Types (st : AppState) (w : jsstring).

(** The subscripts computed for a filter fit its array. *)
Lemma getHashIndices_valid st w :
  Inv m k st →
  Forall (validIndex (length (bitArray st))) (getHashIndices w m k).
Proof.
  intros HI. rewrite (inv_length _ _ _ HI).
  destruct (decide (m = 0)) as [->|Hm].
  - rewrite getHashIndices_zero_capacity. apply Forall_replicate. by left.
  - pose proof (inv_capacity _ _ _ HI).
    apply Forall_forall. intros idx Hidx.
    apply getHashIndices_range in Hidx as (j & -> & Hj); [|lia].
    right. exists (Z.to_nat j). split; [f_equal|]; lia.
Qed.

Lemma Inv_length_bound st :
  Inv m k st → Z.of_nat (length (bitArray st)) < 2 ^ 32.
Proof.
  intros HI. rewrite (inv_length _ _ _ HI).
  pose proof (inv_capacity _ _ _ HI). lia.
Qed.

Lemma configure_Some st0 st :
  configure m k st0 = Some st →
  0 ≤ m < 2 ^ 32
  ∧ st = {| size := m; hashCount := k;
            bitArray := replicate (Z.to_nat m) (Num 0); items := [];
            inputValue := inputValue st0; lastOperation := None;
            alerts := alerts st0 |}.
Proof.
  unfold configure, resetSimulation, newArray. simpl.
  case_bool_decide as Hm; simpl; [|done]. intros [= <-]. done.
Qed.

Lemma Inv_configure st0 st : configure m k st0 = Some st → Inv m k st.
Proof.
  intros [Hm ->]%configure_Some.
  split; simpl; [done..|apply length_replicate| |].
  - intros j Hj. rewrite lookup_replicate_2 by done. done.
  - intros w Hw. by apply elem_of_nil in Hw.
Qed.

Lemma Inv_setInputValue v st : Inv m k st → Inv m k (setInputValue v st).
Proof. intros [? ? ? ? ? ?]. split; done. Qed.

Lemma Inv_handleInsert now st : Inv m k st → Inv m k (handleInsert now st).
Proof.
  intros HI. unfold handleInsert.
  destruct (isEmpty (trim (inputValue st))) eqn:Hblank; [done|].
  pose proof (getHashIndices_valid st (trim (inputValue st)) HI) as Hv.
  pose proof (Inv_length_bound st HI) as Hlen.
  destruct HI as [Hsz Hk Hm Hl Hc Hi].
  split; simpl; rewrite ?Hsz, ?Hk in *; [done..| | |].
  - rewrite length_fold_incrementCell; done.
  - intros j Hj.
    rewrite (lookup_fold_incrementCell _ _ j _ Hlen Hv (Hc j Hj)).
    rewrite load_app, load_cons, load_nil. do 2 f_equal. lia.
  - intros w [Hw| ->%list_elem_of_singleton]%elem_of_app; [by apply Hi|].
    by apply isEmpty_false.
Qed.

Lemma Inv_handleCheck now st : Inv m k st → Inv m k (handleCheck now st).
Proof.
  intros HI. unfold handleCheck.
  destruct (isEmpty (trim (inputValue st))); [done|].
  destruct HI as [? ? ? ? ? ?]. split; done.
Qed.

(** A member's slots hold at least what its deletion takes away: the
    clamp of line 100 does not fire. *)
Lemma Inv_member_covered st w j :
  Inv m k st → w ∈ items st →
  (occurrences j (getHashIndices w m k) ≤ load m k (items st) j)%nat.
Proof.
  intros HI (l1 & l2 & Hitems)%list_elem_of_split.
  rewrite Hitems, load_middle. lia.
Qed.

Lemma Inv_handleDelete now st : Inv m k st → Inv m k (handleDelete now st).
Proof.
  intros HI. unfold handleDelete.
  destruct (isEmpty (trim (inputValue st))) eqn:Hblank; [done|].
  destruct (includes (items st) (trim (inputValue st))) eqn:Hin; simpl.
  2:{ destruct HI as [? ? ? ? ? ?]. split; done. }
  apply includes_true in Hin.
  destruct (remove_first _ _ Hin) as (l1 & l2 & Hitems & Hl1 & ->).
  destruct HI as [Hsz Hk Hm Hl Hc Hi].
  split; simpl; rewrite ?Hsz, ?Hk in *; [done..| | |].
  - rewrite length_fold_decrementCell; done.
  - intros j Hj.
    rewrite (lookup_fold_decrementCell _ _ j _ (Hc j Hj)) by lia.
    rewrite Hitems, load_middle. do 2 f_equal. lia.
  - intros w Hw. apply Hi. rewrite Hitems.
    apply elem_of_app in Hw as [Hw|Hw]; apply elem_of_app;
      [by left|right; by apply elem_of_cons; right].
Qed.

Lemma Inv_perform st a : Inv m k st → Inv m k (perform st a).
Proof.
  intros HI. destruct a; simpl;
    [apply Inv_handleInsert|apply Inv_handleCheck|apply Inv_handleDelete];
    apply Inv_setInputValue, HI.
Qed.

Lemma reachable_Inv st : reachable m k st → Inv m k st.
Proof.
  induction 1 as [st0 st Hst|st a _ IH];
    [eapply Inv_configure, Hst|apply Inv_perform, IH].
Qed.

Lemma reachable_run acts : ∀ st,
  reachable m k st → reachable m k (run acts st).
Proof.
  induction acts as [|a acts IH]; intros st Hst; simpl; [done|].
  apply IH, reachable_step, Hst.
Qed.

End Invariant.

(** ** Hash-index derivation against the reference *)

Lemma getHashIndices_differ input m k i :
  0 ≤ i < k →
  hashIndex (fnv1a input 0x811c9dc5) (fnv1a input 0x9e3779b9) m i
  ≠ Num (Reference.index input m i) →
  getHashIndices input m k ≠ Num <$> Reference.hashIndices input m k.
Proof.
  intros Hi Hne Heq. apply Hne.
  apply (f_equal (fun l => l !! Z.to_nat i)) in Heq.
  rewrite lookup_getHashIndices in Heq by lia.
  unfold Reference.hashIndices in Heq.
  rewrite !list_lookup_fmap, lookup_seqZ_lt in Heq by lia.
  rewrite Z2Nat.id, Z.add_0_l in Heq by lia.
  by injection Heq.
Qed.

(** C2, as stated, fails: for the input "a", capacity 20 and 2^24 + 2
    indices, the product [i * h2] of the last turn (i = 2^24 + 1) is the odd
    number 13255823150553511 > 2^53, no double; the source rounds it, and
    the sum after it, and pushes 4 where the reference index is 2. *)
Lemma getHashIndices_rounds_past_2_53 :
  getHashIndices (str "a") 20 16777218
  ≠ Num <$> Reference.hashIndices (str "a") 20 16777218.
Proof.
  apply (getHashIndices_differ _ _ _ 16777217); [lia|].
  vm_compute. discriminate.
Qed.

(** C2, amended: for every string, every capacity [1 <= m] and every hash
    count [1 <= k <= 2^21], [getHashIndices] returns exactly [k] indices,
    each in [0, m), the [i]-th being [((h1 + i * h2) mod 2^32) mod m] with
    [h1], [h2] the FNV-1a hashes of the reference. *)
Theorem getHashIndices_double_hashing input m k :
  1 ≤ m → 1 ≤ k ≤ 2 ^ 21 →
  getHashIndices input m k = Num <$> Reference.hashIndices input m k
  ∧ length (getHashIndices input m k) = Z.to_nat k
  ∧ Forall (fun j => 0 ≤ j < m) (Reference.hashIndices input m k).
Proof.
  intros Hm Hk.
  assert (getHashIndices input m k = Num <$> Reference.hashIndices input m k)
    as Heq.
  { unfold getHashIndices, Reference.hashIndices.
    rewrite fnv1a_h1, fnv1a_h2, <- list_fmap_compose.
    apply list_fmap_ext. intros n i [-> Hn]%lookup_seqZ. simpl.
    apply hashIndex_exact; lia. }
  split_and!; [done|apply length_getHashIndices|].
  apply Forall_forall. intros j Hj.
  assert (Num j ∈ getHashIndices input m k) as Hin
    by (rewrite Heq; apply list_elem_of_fmap; eauto).
  apply getHashIndices_range in Hin as (j' & [= ->] & ?); done.
Qed.

Lemma getHashIndices_double_hashing_witness :
  getHashIndices (str "alpha") 20 3 = [Num 4; Num 16; Num 8]
  ∧ Reference.hashIndices (str "alpha") 20 3 = [4; 16; 8]
  ∧ getHashIndices (str "alpha") 20 3
    = Num <$> Reference.hashIndices (str "alpha") 20 3.
Proof.
  split_and!; [reflexivity..|].
  apply (getHashIndices_double_hashing (str "alpha") 20 3); lia.
Defined.

(** ** Check *)

Section Check.

Context (m k : Z).

Implicit Types (st : AppState) (w : jsstring).

Lemma occurrences_pos j idxs :
  Num (Z.of_nat j) ∈ idxs → (0 < occurrences j idxs)%nat.
Proof.
  intros Hin. unfold occurrences.
  assert (Num (Z.of_nat j) ∈ filter (fun idx => idx = Num (Z.of_nat j)) idxs)
    as Hf by (by apply list_elem_of_filter).
  destruct (filter _ idxs); [by apply elem_of_nil in Hf|simpl; lia].
Qed.

(** In a filter of capacity [1 <= m] the counter under every computed
    index holds the load of its slot. *)
Lemma getCell_hashIndex st w idx :
  Inv m k st → 1 ≤ m → idx ∈ getHashIndices w m k →
  ∃ j, idx = Num (Z.of_nat j)
       ∧ getCell (bitArray st) idx
         = Num (Z.of_nat (load m k (items st) j)).
Proof.
  intros HI Hm Hidx.
  destruct (getHashIndices_range _ _ _ _ Hm Hidx) as (i & -> & Hi).
  exists (Z.to_nat i). rewrite Z2Nat.id by lia. split; [done|].
  rewrite <- (Z2Nat.id i) at 1 by lia.
  rewrite getCell_Num, (inv_cells _ _ _ HI) by lia. done.
Qed.

(** No counter under an index of a member reads as [0]. *)
Lemma member_not_missing st w :
  Inv m k st → w ∈ items st →
  List.filter (fun idx => strictEq0 (getCell (bitArray st) idx))
              (getHashIndices w m k) = [].
Proof.
  intros HI Hw. apply filter_all_false. intros idx Hidx.
  destruct (decide (m = 0)) as [->|Hm].
  - rewrite getHashIndices_zero_capacity in Hidx.
    apply elem_of_replicate in Hidx as [-> _]. done.
  - pose proof (inv_capacity _ _ _ HI).
    destruct (getCell_hashIndex st w idx HI) as (j & -> & ->); [lia|done|].
    pose proof (Inv_member_covered m k st w j HI Hw).
    pose proof (occurrences_pos j _ Hidx).
    simpl. apply Z.eqb_neq. lia.
Qed.

Lemma handleCheck_lastOperation now st :
  isEmpty (trim (inputValue st)) = false →
  let w := trim (inputValue st) in
  let idxs := getHashIndices w (size st) (hashCount st) in
  let missing :=
    List.filter (fun idx => strictEq0 (getCell (bitArray st) idx)) idxs in
  lastOperation (handleCheck now st)
  = Some {| type := OperationType.check; word := w; indices := idxs;
            isMatch := Nat.eqb (length missing) 0;
            isFalsePositive :=
              Nat.eqb (length missing) 0 && negb (includes (items st) w);
            missingIndices := Some missing; timestamp := now |}.
Proof. intros Hblank. unfold handleCheck. rewrite Hblank. done. Qed.

Lemma multiplicity_perform w st a :
  multiplicity w (items (perform st a))
  = multiplicity w (items st) + netEffect w st a.
Proof.
  destruct a as [x t|x t|x t]; simpl.
  - unfold handleInsert. simpl.
    destruct (isEmpty (trim x)) eqn:Hblank; simpl.
    + apply isEmpty_true in Hblank. case_bool_decide; simpl; [|lia].
      subst w. rewrite Hblank. simpl. lia.
    + rewrite multiplicity_app, multiplicity_cons, multiplicity_nil.
      destruct (decide (trim x = w)) as [<-|Hne].
      * rewrite bool_decide_eq_true_2, Hblank by done. simpl. lia.
      * rewrite bool_decide_eq_false_2 by done. simpl. lia.
  - unfold handleCheck. simpl. destruct (isEmpty (trim x)); simpl; lia.
  - unfold handleDelete. simpl.
    destruct (isEmpty (trim x)) eqn:Hblank; simpl.
    { apply isEmpty_true in Hblank. case_bool_decide; simpl; [|lia].
      subst w. rewrite Hblank. simpl. lia. }
    destruct (includes (items st) (trim x)) eqn:Hin; simpl.
    2:{ case_bool_decide; simpl; [|lia]. subst w.
        rewrite Hin, andb_false_r. lia. }
    apply includes_true in Hin.
    destruct (remove_first _ _ Hin) as (l1 & l2 & Hitems & Hl1 & ->).
    rewrite Hitems, !multiplicity_app, multiplicity_cons.
    destruct (decide (trim x = w)) as [<-|Hne].
    + rewrite bool_decide_eq_true_2, Hblank by done. simpl.
      rewrite (proj2 (includes_true _ _)) by (by rewrite <- Hitems).
      lia.
    + rewrite bool_decide_eq_false_2 by done. simpl. lia.
Qed.

(** The multiplicity of a word among the members is its net count. *)
Lemma multiplicity_run w acts : ∀ st,
  multiplicity w (items (run acts st))
  = multiplicity w (items st) + netCount w acts st.
Proof.
  induction acts as [|a acts IH]; intros st; simpl; [lia|].
  rewrite IH, multiplicity_perform. lia.
Qed.

End Check.

(** ** The operations of the filter *)

(** The invariant of the state that a run from a fresh filter ends in. *)
Ltac run_invariant Hfresh :=
  apply reachable_Inv, reachable_run; econstructor; apply Hfresh.

(** C1: on a filter constructed for any configuration, after any run of
    Insert / Check / Delete actions, an item whose insertions outnumber its
    successful deletions is reported present by Check: the record has
    [isMatch = true] and no missing index. *)
Theorem no_false_negatives m k st0 st acts x now :
  configure m k st0 = Some st →
  0 < netCount (trim x) acts st →
  ∃ r, lastOperation (perform (run acts st) (Check x now)) = Some r
       ∧ type r = OperationType.check
       ∧ word r = trim x
       ∧ isMatch r = true
       ∧ missingIndices r = Some [].
Proof.
  intros Hfresh Hnet.
  assert (Inv m k (run acts st)) as HI
    by run_invariant Hfresh.
  assert (trim x ∈ items (run acts st)) as Hmember.
  { apply multiplicity_pos. rewrite multiplicity_run.
    apply configure_Some in Hfresh as [_ Hst].
    rewrite Hst at 1. simpl. rewrite multiplicity_nil. lia. }
  assert (isEmpty (trim x) = false) as Hblank
    by (apply isEmpty_false, (inv_items _ _ _ HI), Hmember).
  simpl. rewrite handleCheck_lastOperation by done. simpl.
  rewrite (inv_size _ _ _ HI), (inv_hashCount _ _ _ HI).
  rewrite (member_not_missing m k _ _ HI Hmember).
  eexists. split_and!; done.
Qed.

Lemma no_false_negatives_witness :
  0 < netCount (trim (str " alpha"))
               [Insert (str "alpha ") 1; Insert (str "beta") 2;
                Delete (str "beta") 3] initialState
  ∧ ∃ r, lastOperation
           (perform (run [Insert (str "alpha ") 1; Insert (str "beta") 2;
                          Delete (str "beta") 3] initialState)
                    (Check (str " alpha") 4)) = Some r
         ∧ type r = OperationType.check
         ∧ word r = trim (str " alpha")
         ∧ isMatch r = true
         ∧ missingIndices r = Some [].
Proof.
  split; [vm_compute; reflexivity|].
  apply (no_false_negatives 20 3 initialState);
    [reflexivity|vm_compute; reflexivity].
Defined.

(** C3: from a fresh filter, after every run of Insert / Check / Delete
    actions (deletions of absent items included), every counter of the
    array is an integer at least 0. *)
Theorem counters_nonnegative m k st0 st acts :
  configure m k st0 = Some st →
  Forall nonNegative (bitArray (run acts st)).
Proof.
  intros Hfresh.
  assert (Inv m k (run acts st)) as HI
    by run_invariant Hfresh.
  apply Forall_lookup. intros j c Hj.
  assert (j < Z.to_nat m)%nat as Hlt
    by (rewrite <- (inv_length _ _ _ HI); eapply lookup_lt_Some, Hj).
  rewrite (inv_cells _ _ _ HI j Hlt) in Hj. injection Hj as <-.
  eexists. split; [done|lia].
Qed.

Lemma counters_nonnegative_witness :
  configure 20 3 initialState = Some initialState
  ∧ Forall nonNegative
      (bitArray (run [Delete (str "ghost") 1; Insert (str "x") 2;
                      Delete (str "x") 3; Delete (str "x") 4]
                     initialState)).
Proof.
  split; [reflexivity|].
  apply (counters_nonnegative 20 3 initialState). reflexivity.
Defined.

(** C4, as stated, fails for a blank item: Check of the empty string, or
    of white space only, returns at line 61.  It computes no index and
    records no result: the record on display stays what it was, none on a
    fresh filter, the insertion after an Insert. *)
Lemma handleCheck_blank_records_nothing :
  lastOperation (perform initialState (Check [] 1)) = None
  ∧ lastOperation (perform initialState (Check (str " ") 1)) = None
  ∧ type <$> lastOperation
               (perform (run [Insert (str "alpha") 1] initialState)
                        (Check (str " ") 2))
    = Some OperationType.insert.
Proof. split_and!; reflexivity. Qed.

(** C4, amended: in every state of a filter of capacity [1 <= m], Check of
    an item that is not blank
    (a text that [trim] leaves non-empty) records the item's indices;
    [isMatch] is true iff the counter under every index is an integer
    above 0; [missingIndices] lists, in order, the indices whose counter is
    0, and is empty on a match; [isFalsePositive] is true iff [isMatch] is
    and the item is not among the members. *)
Theorem handleCheck_result m k st x now :
  reachable m k st → 1 ≤ m → trim x ≠ [] →
  let idxs := getHashIndices (trim x) m k in
  let counter idx := getCell (bitArray st) idx in
  ∃ r, lastOperation (perform st (Check x now)) = Some r
       ∧ type r = OperationType.check
       ∧ word r = trim x
       ∧ indices r = idxs
       ∧ length idxs = Z.to_nat k
       ∧ (isMatch r = true
          ↔ ∀ idx, idx ∈ idxs → ∃ c, counter idx = Num c ∧ 0 < c)
       ∧ missingIndices r = Some (filter (fun idx => counter idx = Num 0) idxs)
       ∧ (isMatch r = true → missingIndices r = Some [])
       ∧ (isFalsePositive r = true
          ↔ isMatch r = true ∧ trim x ∉ items st).
Proof.
  intros HI%reachable_Inv Hm Hblank%isEmpty_false idxs counter.
  simpl. rewrite handleCheck_lastOperation by done. simpl.
  rewrite (inv_size _ _ _ HI), (inv_hashCount _ _ _ HI). fold idxs.
  set (missing := List.filter _ idxs).
  assert (missing = [] ↔ ∀ idx, idx ∈ idxs → ∃ c, counter idx = Num c ∧ 0 < c)
    as Hmatch.
  { unfold missing, counter. rewrite <- filter_all_false.
    split; intros Hall idx Hidx; specialize (Hall idx Hidx).
    - destruct (getCell_hashIndex m k st _ idx HI Hm Hidx) as (j & _ & Hc).
      rewrite Hc in Hall. simpl in Hall.
      apply Z.eqb_neq in Hall. eexists. split; [apply Hc|lia].
    - destruct Hall as (c & Hc & Hpos). rewrite Hc.
      simpl. apply Z.eqb_neq. lia. }
  assert (Nat.eqb (length missing) 0 = true ↔ missing = []) as Hlen.
  { rewrite Nat.eqb_eq. split; [apply nil_length_inv|by intros ->]. }
  eexists. split; [done|]. simpl.
  split_and!; try done.
  - apply length_getHashIndices.
  - rewrite Hlen. done.
  - f_equal. apply filter_bool_decide. intros idx _. apply strictEq0_iff.
  - rewrite Hlen. by intros ->.
  - rewrite andb_true_iff, negb_true_iff, includes_false. done.
Qed.

Lemma handleCheck_result_witness :
  ∃ r, lastOperation
         (perform (run [Insert (str "alpha") 1] initialState)
                  (Check (str "beta") 2)) = Some r
       ∧ indices r = [Num 6; Num 8; Num 6]
       ∧ isMatch r = false
       ∧ missingIndices r = Some [Num 6; Num 6]
       ∧ isFalsePositive r = false.
Proof.
  destruct (handleCheck_result 20 3 (run [Insert (str "alpha") 1] initialState)
              (str "beta") 2) as (r & Hr & _);
    [apply reachable_run, (reachable_fresh 20 3 initialState); reflexivity
    |lia|discriminate|].
  exists r. split; [exact Hr|].
  vm_compute in Hr. injection Hr as <-. repeat split.
Defined.

(** C9: Check is a query.  Whatever the state and the text in the box,
    [handleCheck] leaves the counter array, the members, the configuration,
    the text box and the alerts as they are; only [lastOperation] can
    change. *)
Theorem handleCheck_pure now st :
  bitArray (handleCheck now st) = bitArray st
  ∧ items (handleCheck now st) = items st
  ∧ size (handleCheck now st) = size st
  ∧ hashCount (handleCheck now st) = hashCount st
  ∧ inputValue (handleCheck now st) = inputValue st
  ∧ alerts (handleCheck now st) = alerts st.
Proof.
  unfold handleCheck. destruct (isEmpty (trim (inputValue st))); done.
Qed.

(** C5, as stated, fails for a blank item: Delete of a text of white
    space only, which is not among the members, returns at line 87.  It
    raises no alert and records nothing: a silent no-op. *)
Lemma handleDelete_blank_is_silent :
  (str " " ∉ items initialState)
  ∧ (trim (str " ") ∉ items initialState)
  ∧ alerts (perform initialState (Delete (str " ") 1)) = []
  ∧ lastOperation (perform initialState (Delete (str " ") 1)) = None
  ∧ bitArray (perform initialState (Delete (str " ") 1))
    = bitArray initialState.
Proof. split_and!; first [apply not_elem_of_nil|reflexivity]. Qed.

(** C5, amended: in every state, Delete of an item that is not among the
    members leaves the counter array, the members and the configuration as
    they are, and, when the item is not blank (a text that [trim] leaves
    non-empty), raises the alert that says so and records no operation:
    the test of line 90 returns before line 98 copies the array. *)
Theorem handleDelete_absent st x now :
  trim x ∉ items st →
  let st' := perform st (Delete x now) in
  bitArray st' = bitArray st
  ∧ items st' = items st
  ∧ size st' = size st
  ∧ hashCount st' = hashCount st
  ∧ (trim x ≠ [] →
     alerts st' = alerts st ++ [notInSetMessage (trim x)]
     ∧ lastOperation st' = lastOperation st).
Proof.
  intros Habsent%includes_false. simpl. unfold handleDelete. simpl.
  destruct (isEmpty (trim x)) eqn:Hblank.
  - apply isEmpty_true in Hblank. done.
  - rewrite Habsent. simpl. done.
Qed.

Lemma handleDelete_absent_witness :
  (str "ghost" ∉ items initialState)
  ∧ bitArray (perform initialState (Delete (str "ghost") 1))
    = bitArray initialState
  ∧ items (perform initialState (Delete (str "ghost") 1)) = []
  ∧ alerts (perform initialState (Delete (str "ghost") 1))
    = [notInSetMessage (str "ghost")]
  ∧ lastOperation (perform initialState (Delete (str "ghost") 1)) = None.
Proof.
  assert (trim (str "ghost") ∉ items initialState) as Habsent
    by apply not_elem_of_nil.
  destruct (handleDelete_absent initialState (str "ghost") 1 Habsent)
    as (Hbits & Hitems & _ & _ & Hrest).
  destruct Hrest as (Halerts & Hlast); [discriminate|].
  split_and!; [apply not_elem_of_nil|exact Hbits|exact Hitems
              |exact Halerts|exact Hlast].
Defined.

(** ** Insert followed by Delete *)

Lemma handleInsert_blank now st :
  trim (inputValue st) = [] → handleInsert now st = st.
Proof. intros Hblank. unfold handleInsert. rewrite Hblank. done. Qed.

Lemma handleDelete_blank now st :
  trim (inputValue st) = [] → handleDelete now st = st.
Proof. intros Hblank. unfold handleDelete. rewrite Hblank. done. Qed.

Lemma handleInsert_word now st :
  trim (inputValue st) ≠ [] →
  let w := trim (inputValue st) in
  let idxs := getHashIndices w (size st) (hashCount st) in
  handleInsert now st
  = {| size := size st; hashCount := hashCount st;
       bitArray := fold_left incrementCell idxs (bitArray st);
       items := items st ++ [w]; inputValue := [];
       lastOperation :=
         Some {| type := OperationType.insert; word := w; indices := idxs;
                 isMatch := true; isFalsePositive := false;
                 missingIndices := None; timestamp := now |};
       alerts := alerts st |}.
Proof.
  intros Hblank%isEmpty_false. unfold handleInsert. rewrite Hblank. done.
Qed.

Lemma handleDelete_word now st :
  trim (inputValue st) ≠ [] →
  trim (inputValue st) ∈ items st →
  let w := trim (inputValue st) in
  let idxs := getHashIndices w (size st) (hashCount st) in
  ∃ l1 l2, items st = l1 ++ w :: l2 ∧ (w ∉ l1) ∧
  handleDelete now st
  = {| size := size st; hashCount := hashCount st;
       bitArray := fold_left decrementCell idxs (bitArray st);
       items := l1 ++ l2; inputValue := [];
       lastOperation :=
         Some {| type := OperationType.delete; word := w; indices := idxs;
                 isMatch := true; isFalsePositive := false;
                 missingIndices := None; timestamp := now |};
       alerts := alerts st |}.
Proof.
  intros Hblank%isEmpty_false Hin. simpl.
  destruct (remove_first _ _ Hin) as (l1 & l2 & Hitems & Hl1 & Hnew).
  exists l1, l2. split_and!; [done..|].
  unfold handleDelete. rewrite Hblank.
  rewrite (proj2 (includes_true _ _) Hin). simpl. rewrite Hnew. done.
Qed.

(** C8: in every reachable state, Insert of [x] followed at once by Delete
    of [x] leaves the counter array exactly as it was before the Insert and
    the members a permutation of what they were, raises no alert and, for
    an item (a text that [trim] leaves non-empty), ends on the record of a
    successful Delete. *)
Theorem insert_delete_round_trip m k st x t1 t2 :
  reachable m k st →
  let st' := run [Insert x t1; Delete x t2] st in
  bitArray st' = bitArray st
  ∧ items st' ≡ₚ items st
  ∧ alerts st' = alerts st
  ∧ (trim x ≠ [] →
     lastOperation st'
     = Some {| type := OperationType.delete; word := trim x;
               indices := getHashIndices (trim x) m k;
               isMatch := true; isFalsePositive := false;
               missingIndices := None; timestamp := t2 |}).
Proof.
  intros HI%reachable_Inv. simpl.
  destruct (decide (trim x = [])) as [Hblank|Hblank].
  { rewrite (handleInsert_blank t1 (setInputValue x st)) by done.
    rewrite handleDelete_blank by done. done. }
  rewrite handleInsert_word by done. simpl.
  set (idxs := getHashIndices (trim x) (size st) (hashCount st)).
  match goal with |- context [handleDelete t2 ?s] =>
    destruct (handleDelete_word t2 s) as (l1 & l2 & Hitems & Hl1 & ->)
  end; [done|simpl; apply elem_of_app; right; apply list_elem_of_here|].
  simpl in *. fold idxs.
  assert (idxs = getHashIndices (trim x) m k) as Hidxs
    by (unfold idxs; rewrite (inv_size _ _ _ HI), (inv_hashCount _ _ _ HI);
        done).
  pose proof (getHashIndices_valid m k st (trim x) HI) as Hv.
  pose proof (Inv_length_bound m k st HI) as Hlen.
  rewrite <- Hidxs in Hv.
  split_and!; [| |done|by rewrite Hidxs].
  - apply (list_eq_same_length _ _ (length (bitArray st))); [done| |].
    { rewrite length_fold_decrementCell, length_fold_incrementCell; done. }
    intros j c c' Hj Hc Hc'.
    rewrite (inv_length _ _ _ HI) in Hj.
    pose proof (inv_cells _ _ _ HI j Hj) as Hcell.
    rewrite (lookup_fold_decrementCell idxs _ j _
               (lookup_fold_incrementCell idxs _ j _ Hlen Hv Hcell)) in Hc
      by lia.
    rewrite Hcell in Hc'. injection Hc as <-. injection Hc' as <-.
    f_equal. lia.
  - apply (Permutation_cons_inv (a := trim x)).
    etrans; [apply Permutation_middle|]. rewrite <- Hitems.
    symmetry. apply Permutation_cons_append.
Qed.

Lemma insert_delete_round_trip_witness :
  reachable 20 3 (run [Insert (str "y") 1; Insert (str "beta") 2] initialState)
  ∧ bitArray (run [Insert (str "beta") 3; Delete (str "beta") 4]
                  (run [Insert (str "y") 1; Insert (str "beta") 2]
                       initialState))
    = bitArray (run [Insert (str "y") 1; Insert (str "beta") 2] initialState).
Proof.
  assert (reachable 20 3
            (run [Insert (str "y") 1; Insert (str "beta") 2] initialState))
    as Hreach
    by (apply reachable_run, (reachable_fresh 20 3 initialState); reflexivity).
  split; [exact Hreach|].
  apply (insert_delete_round_trip 20 3 _ (str "beta") 3 4 Hreach).
Defined.

(** ** The sum of the counters *)

Section CounterSum.

Lemma sum_list_with_ext {A} (f g : A → nat) (l : list A) :
  (∀ x, f x = g x) → sum_list_with f l = sum_list_with g l.
Proof.
  intros Hfg. induction l as [|x l IH]; simpl; [done|]. by rewrite Hfg, IH.
Qed.

Lemma sum_list_with_zero {A} (l : list A) :
  sum_list_with (fun _ => 0%nat) l = 0%nat.
Proof. induction l as [|x l IH]; simpl; done. Qed.

Lemma sum_list_with_plus {A} (f g : A → nat) (l : list A) :
  sum_list_with (fun x => f x + g x)%nat l
  = (sum_list_with f l + sum_list_with g l)%nat.
Proof. induction l as [|x l IH]; simpl; [done|]. rewrite IH. lia. Qed.

Lemma sumCounters_fmap (f : nat → nat) (l : list nat) :
  sumCounters ((fun j => Num (Z.of_nat (f j))) <$> l)
  = Num (Z.of_nat (sum_list_with f l)).
Proof.
  induction l as [|j l IH]; [done|].
  rewrite fmap_cons. unfold sumCounters in *. simpl. rewrite IH. simpl.
  f_equal. lia.
Qed.

(** Exactly one slot of [s .. s + n - 1] is the slot [i], if any. *)
Lemma sum_indicator (i n : nat) : ∀ s,
  sum_list_with
    (fun j => if decide (Num (Z.of_nat i) = Num (Z.of_nat j)) then 1 else 0)%nat
    (seq s n)
  = (if decide (s ≤ i < s + n)%nat then 1 else 0)%nat.
Proof.
  induction n as [|n IH]; intros s; simpl.
  { rewrite decide_False by lia. done. }
  rewrite IH.
  destruct (decide (i = s)) as [->|Hne].
  - rewrite decide_True by done.
    rewrite decide_False, decide_True by lia. done.
  - rewrite decide_False by (intros [= ?]; lia).
    destruct (decide (S s ≤ i < S s + n)%nat);
      [rewrite decide_True by lia|rewrite decide_False by lia]; done.
Qed.

(** Summed over the slots, the occurrences of in-range indices count the
    indices. *)
Lemma sum_occurrences (n : nat) (idxs : list jsval) :
  Forall (fun idx => ∃ i, idx = Num (Z.of_nat i) ∧ (i < n)%nat) idxs →
  sum_list_with (fun j => occurrences j idxs) (seq 0 n) = length idxs.
Proof.
  induction 1 as [|idx idxs (i & -> & Hi) _ IH].
  - apply sum_list_with_zero.
  - simpl. rewrite (sum_list_with_ext _ _ _ (fun j => occurrences_cons j _ _)).
    rewrite sum_list_with_plus, IH, sum_indicator.
    rewrite decide_True by lia. done.
Qed.

Lemma sum_load m k (items : list jsstring) :
  1 ≤ m →
  sum_list_with (load m k items) (seq 0 (Z.to_nat m))
  = (length items * Z.to_nat k)%nat.
Proof.
  intros Hm. induction items as [|w items IH].
  - apply sum_list_with_zero.
  - simpl. rewrite (sum_list_with_ext _ _ _ (fun j => load_cons m k w items j)).
    rewrite sum_list_with_plus, IH, sum_occurrences.
    + rewrite length_getHashIndices. done.
    + apply Forall_forall. intros idx (j & -> & Hj)%getHashIndices_range;
        [|done].
      exists (Z.to_nat j). split; [f_equal|]; lia.
Qed.

(** The array of a filter is the table of the loads of its slots. *)
Lemma Inv_bitArray m k st :
  Inv m k st →
  bitArray st
  = (fun j => Num (Z.of_nat (load m k (items st) j))) <$> seq 0 (Z.to_nat m).
Proof.
  intros HI. apply list_eq. intros j.
  destruct (decide (j < Z.to_nat m)%nat) as [Hj|Hj].
  - rewrite (inv_cells _ _ _ HI j Hj), list_lookup_fmap.
    rewrite lookup_seq_lt by done. done.
  - rewrite !lookup_ge_None_2; [done| |].
    + rewrite length_fmap, length_seq. lia.
    + rewrite (inv_length _ _ _ HI). lia.
Qed.

End CounterSum.

(** C10: from a fresh filter of capacity [1 <= m] and hash count [1 <= k],
    after every run of Insert / Check / Delete actions the counters sum to
    [k] times the number of members; and every counter is at least the
    number of decrements that the deletion of any one member applies to it,
    so that the clamp of that deletion does not fire. *)
Theorem counter_sum m k st0 st acts :
  configure m k st0 = Some st → 1 ≤ m → 1 ≤ k →
  let st' := run acts st in
  sumCounters (bitArray st') = Num (k * Z.of_nat (length (items st')))
  ∧ ∀ w j c, w ∈ items st' → bitArray st' !! j = Some c →
      ∃ z, c = Num z ∧ Z.of_nat (occurrences j (getHashIndices w m k)) ≤ z.
Proof.
  intros Hfresh Hm Hk st'.
  assert (Inv m k st') as HI
    by run_invariant Hfresh.
  split.
  - rewrite (Inv_bitArray m k st' HI), sumCounters_fmap, sum_load by done.
    f_equal. lia.
  - intros w j c Hw Hj.
    assert (j < Z.to_nat m)%nat as Hlt
      by (rewrite <- (inv_length _ _ _ HI); eapply lookup_lt_Some, Hj).
    rewrite (inv_cells _ _ _ HI j Hlt) in Hj. injection Hj as <-.
    eexists. split; [done|].
    pose proof (Inv_member_covered m k st' w j HI Hw). lia.
Qed.

Lemma counter_sum_witness :
  configure 20 3 initialState = Some initialState
  ∧ sumCounters
      (bitArray (run [Insert (str "alpha") 1; Insert (str "beta") 2;
                      Insert (str "beta") 3; Delete (str "alpha") 4;
                      Delete (str "gamma") 5] initialState))
    = Num (3 * 2).
Proof.
  split; [reflexivity|].
  apply (counter_sum 20 3 initialState initialState
           [Insert (str "alpha") 1; Insert (str "beta") 2;
            Insert (str "beta") 3; Delete (str "alpha") 4;
            Delete (str "gamma") 5]); [reflexivity|lia|lia].
Defined.

(** ** Construction *)

(** C6, as stated, fails: a filter of capacity 0 and hash count 3 is
    constructed without any error. *)
Lemma configure_accepts_zero_capacity :
  configure 0 3 initialState
  = Some {| size := 0; hashCount := 3; bitArray := []; items := [];
            inputValue := []; lastOperation := None; alerts := [] |}
  ∧ configure 0 3 initialState ≠ None.
Proof. split; [reflexivity|discriminate]. Qed.

Lemma offered_configuration m k st :
  sizeOffered m = true → hashCountOffered k = true →
  1 ≤ m ∧ 1 ≤ k ∧ is_Some (configure m k st).
Proof.
  unfold sizeOffered, hashCountOffered.
  intros [[Hlo%Z.leb_le Hhi%Z.leb_le]%andb_true_iff _]%andb_true_iff
         [Hk%Z.leb_le _]%andb_true_iff.
  split_and!; [lia..|].
  unfold configure, resetSimulation, newArray. simpl.
  rewrite bool_decide_eq_true_2 by lia. simpl. eauto.
Qed.

(** C6, amended: construction validates nothing.  For every hash count and
    every capacity that is an array length ([0 <= m < 2^32], 0 included)
    it yields a filter of [m] zero counters and no members; a capacity
    outside that range is the only failure ([Array(size)] raises).  With
    capacity 0, index derivation raises nothing either: it returns [NaN]
    [k] times.  A configuration with [1 <= m] and [1 <= k] is what the
    sliders offer, not what construction checks. *)
Theorem configure_validates_nothing m k st :
  (is_Some (configure m k st) ↔ 0 ≤ m < 2 ^ 32)
  ∧ (∀ st', configure m k st = Some st' →
       size st' = m ∧ hashCount st' = k
       ∧ bitArray st' = replicate (Z.to_nat m) (Num 0)
       ∧ items st' = [] ∧ lastOperation st' = None)
  ∧ (∀ w, getHashIndices w 0 k = replicate (Z.to_nat k) NaN)
  ∧ (sizeOffered m = true → hashCountOffered k = true →
     1 ≤ m ∧ 1 ≤ k ∧ is_Some (configure m k st)).
Proof.
  split_and!; [..|apply offered_configuration].
  - split.
    + intros [st' [Hm _]%configure_Some]. done.
    + intros Hm. unfold configure, resetSimulation, newArray. simpl.
      rewrite bool_decide_eq_true_2 by done. simpl. eauto.
  - intros st' [_ ->]%configure_Some. done.
  - intros w. apply getHashIndices_zero_capacity.
Qed.

Lemma configure_validates_nothing_witness :
  sizeOffered 20 = true ∧ hashCountOffered 3 = true
  ∧ 1 ≤ 20 ∧ 1 ≤ 3 ∧ is_Some (configure 20 3 initialState).
Proof.
  destruct (configure_validates_nothing 20 3 initialState)
    as (_ & _ & _ & Hoffered).
  split; [reflexivity|split; [reflexivity|]].
  apply Hoffered; reflexivity.
Defined.

(** ** The scenarios of the specification, for [m = 20] and [k = 3] *)

(** Insert "alpha", then Check "alpha": a match, no false positive. *)
Example scenario_insert_check :
  (fun r => (isMatch r, isFalsePositive r))
    <$> lastOperation (run [Insert (str "alpha") 1; Check (str "alpha") 2]
                           initialState)
  = Some (true, false).
Proof. vm_compute. reflexivity. Qed.

(** Fresh filter, Check of an item never inserted: every index is missing. *)
Example scenario_fresh_check :
  (fun r => (isMatch r, missingIndices r))
    <$> lastOperation (run [Check (str "never-inserted") 1] initialState)
  = Some (false, Some (getHashIndices (str "never-inserted") 20 3)).
Proof. vm_compute. reflexivity. Qed.

(** Insert "beta", Delete "beta", Check "beta": no match. *)
Example scenario_insert_delete_check :
  isMatch
    <$> lastOperation (run [Insert (str "beta") 1; Delete (str "beta") 2;
                            Check (str "beta") 3] initialState)
  = Some false.
Proof. vm_compute. reflexivity. Qed.

(** "alpha" (slots 4, 16, 8) and "beta" (slots 6, 8, 6) share the slot 8:
    after both are inserted and "alpha" is deleted the slot holds 1 and
    "beta" is still matched. *)
Example scenario_shared_slot :
  let st := run [Insert (str "alpha") 1; Insert (str "beta") 2;
                 Delete (str "alpha") 3; Check (str "beta") 4] initialState in
  bitArray st !! 8%nat = Some (Num 1)
  ∧ bitArray st !! 6%nat = Some (Num 2)
  ∧ isMatch <$> lastOperation st = Some true.
Proof. vm_compute. repeat split. Qed.

(** On a filter of capacity 0 every Check is a match. *)
Example scenario_zero_capacity :
  (fun st => (fun r => (indices r, isMatch r)) <$> lastOperation st)
    <$> (run [Check (str "x") 1] <$> configure 0 3 initialState)
  = Some (Some ([NaN; NaN; NaN], true)).
Proof. vm_compute. reflexivity. Qed.

(** * Further properties of the code *)

(** ** bloomLogic.ts *)

(** X1: for a size other than 0, [getHashIndices] returns one index per
    turn of its loop, [k] of them for [0 <= k] and none for a negative
    [k], each an integer in [0, |size|) (rounding of [h1 + i * h2]
    included), so that each is a cell of an array of [size] counters. *)
Theorem getHashIndices_in_range input m k :
  m ≠ 0 →
  length (getHashIndices input m k) = Z.to_nat k
  ∧ Forall (fun idx => ∃ j, idx = Num j ∧ 0 ≤ j < Z.abs m)
           (getHashIndices input m k).
Proof.
  intros Hm. split; [apply length_getHashIndices|].
  apply Forall_forall. intros idx [i [-> _]]%list_elem_of_fmap.
  unfold hashIndex, toUint32, rem.
  destruct (Z.eqb_spec m 0) as [->|_]; [done|].
  eexists. split; [done|].
  match goal with |- context [Z.rem ?a m] =>
    assert (0 ≤ a) as Ha by (apply Z.mod_pos_bound; lia);
    pose proof (Z.rem_bound_pos_pos a (Z.abs m) ltac:(lia) Ha) as Hb;
    pose proof (Z.rem_abs_r a m Hm) as Habs
  end.
  lia.
Qed.

Lemma getHashIndices_in_range_witness :
  20 ≠ 0
  ∧ length (getHashIndices (str "beta") 20 3) = Z.to_nat 3
  ∧ Forall (fun idx => ∃ j, idx = Num j ∧ 0 ≤ j < Z.abs 20)
           (getHashIndices (str "beta") 20 3).
Proof.
  split; [discriminate|].
  apply (getHashIndices_in_range (str "beta") 20 3). discriminate.
Defined.

(** X2: the index of a turn does not depend on the number of turns: the
    indices for [k] hash functions are the first [k] of the indices for any
    larger number. *)
Theorem getHashIndices_prefix input m k k' :
  k ≤ k' →
  getHashIndices input m k = take (Z.to_nat k) (getHashIndices input m k').
Proof.
  intros Hk. unfold getHashIndices.
  destruct (decide (0 ≤ k)) as [Hk0|Hk0].
  - replace k' with (k + (k' - k)) by lia.
    rewrite seqZ_app, fmap_app by lia.
    rewrite take_app_length'; [done|].
    rewrite length_fmap, length_seqZ. done.
  - rewrite seqZ_nil by lia. rewrite Z2Nat.nonpos by lia. done.
Qed.

Lemma getHashIndices_prefix_witness :
  3 ≤ 5
  ∧ getHashIndices (str "alpha") 20 3
    = take (Z.to_nat 3) (getHashIndices (str "alpha") 20 5).
Proof.
  split; [lia|]. apply (getHashIndices_prefix (str "alpha") 20 3 5). lia.
Defined.

(** ** App.tsx: what the text box contributes *)

Section TextBox.

Implicit Types (st : AppState) (a : action).

Lemma sameFilter_refl st : sameFilter st st.
Proof. repeat split. Qed.

Lemma sameFilter_trans st1 st2 st3 :
  sameFilter st1 st2 → sameFilter st2 st3 → sameFilter st1 st3.
Proof.
  intros (? & ? & ? & ? & ? & ?) (? & ? & ? & ? & ? & ?).
  repeat split; congruence.
Qed.

Lemma sameFilter_setInputValue v st : sameFilter (setInputValue v st) st.
Proof. repeat split. Qed.

(** A handler reads the text box only through [trim]. *)
Lemma sameFilter_perform st st' a a' :
  sameFilter st st' → sameButton a a' →
  trim (actionInput a) = trim (actionInput a') →
  sameFilter (perform st a) (perform st' a').
Proof.
  intros (Hsz & Hk & Hbits & Hitems & Hlast & Halerts) Hbutton Htrim.
  destruct a as [x t|x t|x t], a' as [x' t'|x' t'|x' t']; try done;
    simpl in Hbutton, Htrim; subst t'; simpl;
    unfold handleInsert, handleCheck, handleDelete; simpl;
    rewrite <- Htrim, <- ?Hsz, <- ?Hk, <- ?Hbits, <- ?Hitems, <- ?Hlast,
      <- ?Halerts;
    destruct (isEmpty (trim x)); try (by repeat split);
    destruct (includes (items st) (trim x)); by repeat split.
Qed.

Lemma sameFilter_perform_blank st a :
  trim (actionInput a) = [] → sameFilter (perform st a) st.
Proof.
  intros Hblank. destruct a as [x t|x t|x t]; simpl in *.
  - rewrite handleInsert_blank by done. apply sameFilter_setInputValue.
  - unfold handleCheck. simpl. rewrite Hblank. apply sameFilter_setInputValue.
  - rewrite handleDelete_blank by done. apply sameFilter_setInputValue.
Qed.

End TextBox.

Lemma sameFilter_run acts : ∀ st st',
  sameFilter st st' → sameFilter (run acts st) (run acts st').
Proof.
  induction acts as [|a acts IH]; intros st st' Hst; [done|]. simpl.
  apply IH, sameFilter_perform; [done|by destruct a|done].
Qed.

(** X3: an action whose text is empty or all white space does nothing:
    no counter, member, record or alert changes, whichever button is
    pressed; so such actions can be struck from a run without changing
    what the run leaves of the filter. *)
Theorem run_skip_blank acts st :
  sameFilter (run (filter (fun a => trim (actionInput a) ≠ []) acts) st)
             (run acts st).
Proof.
  revert st. induction acts as [|a acts IH]; intros st;
    [apply sameFilter_refl|].
  rewrite filter_cons. destruct (decide (trim (actionInput a) ≠ [])) as [|Hb].
  - simpl. apply IH.
  - simpl. apply dec_stable in Hb.
    eapply sameFilter_trans; [apply IH|].
    apply sameFilter_run.
    destruct (sameFilter_perform_blank st a Hb) as (? & ? & ? & ? & ? & ?).
    by repeat split.
Qed.

(** X4: the handlers read the text box through [trim] only: two runs of
    the same buttons, pressed at the same moments on texts that agree once
    trimmed, leave the same counters, members, record and alerts. *)
Theorem run_trimmed_inputs acts acts' st :
  Forall2 (fun a a' =>
             sameButton a a' ∧ trim (actionInput a) = trim (actionInput a'))
          acts acts' →
  sameFilter (run acts st) (run acts' st).
Proof.
  intros Hacts. generalize (sameFilter_refl st). generalize st at 1 3.
  revert st. induction Hacts as [|a a' acts acts' [Hb Ht] _ IH];
    intros st st' Hst; [done|].
  simpl. apply IH, sameFilter_perform; done.
Qed.

Lemma run_trimmed_inputs_witness :
  sameFilter
    (run [Insert (str " alpha ") 1; Check (str "alpha") 2] initialState)
    (run [Insert (str "alpha") 1; Check (str "  alpha") 2] initialState).
Proof.
  apply (run_trimmed_inputs
           [Insert (str " alpha ") 1; Check (str "alpha") 2]
           [Insert (str "alpha") 1; Check (str "  alpha") 2] initialState).
  repeat constructor.
Defined.

(** ** App.tsx: the filter *)

Section Filter.

Context (m k : Z).

Implicit Types (st : AppState) (x w : jsstring).

(** Check of a member records a match that is no false positive. *)
Lemma check_member st x now :
  Inv m k st → trim x ∈ items st →
  lastOperation (perform st (Check x now))
  = Some {| type := OperationType.check; word := trim x;
            indices := getHashIndices (trim x) m k; isMatch := true;
            isFalsePositive := false; missingIndices := Some [];
            timestamp := now |}.
Proof.
  intros HI Hmember.
  assert (isEmpty (trim x) = false) as Hblank
    by (apply isEmpty_false, (inv_items _ _ _ HI), Hmember).
  simpl. rewrite handleCheck_lastOperation by done. simpl.
  rewrite (inv_size _ _ _ HI), (inv_hashCount _ _ _ HI).
  rewrite (member_not_missing m k _ _ HI Hmember). simpl.
  rewrite (proj2 (includes_true _ _) Hmember). done.
Qed.

Lemma items_handleInsert now st :
  trim (inputValue st) ≠ [] →
  items (handleInsert now st) = items st ++ [trim (inputValue st)].
Proof. intros Hblank. rewrite handleInsert_word by done. done. Qed.

(** The loads, hence the array, do not depend on the order of the
    members. *)
Lemma load_Permutation items1 items2 j :
  items1 ≡ₚ items2 → load m k items1 j = load m k items2 j.
Proof. intros Hperm. unfold load. by rewrite Hperm. Qed.

End Filter.

(** X5: insert, then look up.  In every reachable state, Insert of an
    item followed by Check of the same item (the same text once trimmed)
    records a match for it, no missing index, and no false positive. *)
Theorem insert_then_check m k st x x' t1 t2 :
  reachable m k st → trim x ≠ [] → trim x' = trim x →
  lastOperation (run [Insert x t1; Check x' t2] st)
  = Some {| type := OperationType.check; word := trim x;
            indices := getHashIndices (trim x) m k; isMatch := true;
            isFalsePositive := false; missingIndices := Some [];
            timestamp := t2 |}.
Proof.
  intros Hreach Hblank Hsame. simpl.
  change (handleCheck t2 (setInputValue x' ?s)) with (perform s (Check x' t2)).
  rewrite <- Hsame. apply check_member.
  - apply Inv_handleInsert, Inv_setInputValue, reachable_Inv, Hreach.
  - rewrite Hsame, items_handleInsert by done. simpl.
    apply elem_of_app. right. apply list_elem_of_here.
Qed.

Lemma insert_then_check_witness :
  trim (str "beta ") ≠ [] ∧ trim (str " beta") = trim (str "beta ")
  ∧ lastOperation (run [Insert (str "beta ") 1; Check (str " beta") 2]
                       initialState)
    = Some {| type := OperationType.check; word := trim (str "beta ");
              indices := getHashIndices (trim (str "beta ")) 20 3;
              isMatch := true; isFalsePositive := false;
              missingIndices := Some []; timestamp := 2 |}.
Proof.
  split; [discriminate|]. split; [reflexivity|].
  apply (insert_then_check 20 3 initialState (str "beta ") (str " beta") 1 2);
    [apply (reachable_fresh 20 3 initialState); reflexivity
    |discriminate|reflexivity].
Defined.

(** X6: in every state, Delete of an item that is among the members takes
    out its first occurrence and nothing else (the order of the others is
    kept, later copies of the item stay), raises no alert, clears the text
    box and records the deletion. *)
Theorem handleDelete_present st x now :
  trim x ≠ [] → trim x ∈ items st →
  let st' := perform st (Delete x now) in
  ∃ l1 l2, items st = l1 ++ trim x :: l2 ∧ (trim x ∉ l1)
    ∧ items st' = l1 ++ l2
    ∧ Z.of_nat (length (items st')) = Z.of_nat (length (items st)) - 1
    ∧ alerts st' = alerts st
    ∧ inputValue st' = []
    ∧ lastOperation st'
      = Some {| type := OperationType.delete; word := trim x;
                indices := getHashIndices (trim x) (size st) (hashCount st);
                isMatch := true; isFalsePositive := false;
                missingIndices := None; timestamp := now |}.
Proof.
  intros Hblank Hmember. simpl.
  destruct (handleDelete_word now (setInputValue x st) Hblank Hmember)
    as (l1 & l2 & Hitems & Hl1 & ->).
  simpl in *. exists l1, l2. split_and!; try done.
  rewrite Hitems, !length_app. simpl. lia.
Qed.

Lemma handleDelete_present_witness :
  items (run [Insert (str "a") 1; Insert (str "b") 2; Insert (str "a") 3;
              Delete (str "a") 4] initialState)
  = [str "b"; str "a"].
Proof.
  destruct (handleDelete_present
              (run [Insert (str "a") 1; Insert (str "b") 2;
                    Insert (str "a") 3] initialState) (str "a") 4)
    as (l1 & l2 & Hitems & Hl1 & Hnew & _);
    [discriminate|vm_compute; apply list_elem_of_here|].
  transitivity (l1 ++ l2); [exact Hnew|]. vm_compute in Hitems.
  destruct l1 as [|y l1]; simpl in Hitems.
  - by injection Hitems as <-.
  - exfalso. injection Hitems as <- _. apply Hl1. vm_compute.
    apply list_elem_of_here.
Defined.

(** X7: the counter array is a function of the members as a multiset:
    two reachable states of the same configuration whose members are
    permutations of each other have the same array, whatever runs led to
    them. *)
Theorem bitArray_of_members m k st1 st2 :
  reachable m k st1 → reachable m k st2 →
  items st1 ≡ₚ items st2 →
  bitArray st1 = bitArray st2.
Proof.
  intros H1%reachable_Inv H2%reachable_Inv Hperm.
  rewrite (Inv_bitArray m k st1 H1), (Inv_bitArray m k st2 H2).
  apply list_fmap_ext. intros _ j _.
  by rewrite (load_Permutation m k _ _ j Hperm).
Qed.

Lemma bitArray_of_members_witness :
  bitArray (run [Insert (str "alpha") 1; Insert (str "beta") 2] initialState)
  = bitArray (run [Insert (str "gamma") 1; Insert (str "beta") 2;
                   Delete (str "gamma") 3; Insert (str "alpha") 4]
                  initialState).
Proof.
  apply (bitArray_of_members 20 3);
    [apply reachable_run, (reachable_fresh 20 3 initialState); reflexivity..|].
  vm_compute. apply perm_swap.
Defined.

(** ** App.tsx: what the members are *)

Section Trim.

Implicit Types (s : jsstring).

Lemma trimStart_head s c r : trimStart s = c :: r → isWhiteSpace c = false.
Proof.
  induction s as [|d s IH]; simpl; [done|].
  destruct (isWhiteSpace d) eqn:Hd; [done|]. by intros [= <- _].
Qed.

Lemma trimStart_fixed s :
  match s with c :: _ => isWhiteSpace c = false | [] => True end →
  trimStart s = s.
Proof. destruct s as [|c s]; simpl; [done|]. by intros ->. Qed.

Lemma trimStart_idem s : trimStart (trimStart s) = trimStart s.
Proof.
  apply trimStart_fixed. destruct (trimStart s) eqn:Hs; [done|].
  eapply trimStart_head, Hs.
Qed.

Lemma trimStart_suffix s : ∃ p, s = p ++ trimStart s.
Proof.
  induction s as [|c s [p Hp]]; simpl; [by exists []|].
  destruct (isWhiteSpace c); [|by exists []].
  exists (c :: p). simpl. by rewrite <- Hp.
Qed.

(** What [trim] returns has no white space at either end. *)
Lemma trim_clean s :
  trimStart (trim s) = trim s
  ∧ trimStart (reverse (trim s)) = reverse (trim s).
Proof.
  unfold trim. set (t := trimStart s). set (u := trimStart (reverse t)).
  split.
  - apply trimStart_fixed. destruct (reverse u) as [|c r] eqn:Hu; [done|].
    destruct (trimStart_suffix (reverse t)) as [p Hp]. fold u in Hp.
    apply (f_equal reverse) in Hp.
    rewrite reverse_involutive, reverse_app, Hu in Hp.
    simpl in Hp. eapply trimStart_head. unfold t in Hp. apply Hp.
  - rewrite reverse_involutive. apply trimStart_idem.
Qed.

Lemma trim_idem s : trim (trim s) = trim s.
Proof.
  destruct (trim_clean s) as [H1 H2].
  unfold trim at 1. rewrite H1, H2, reverse_involutive. done.
Qed.

End Trim.

Lemma reachable_items_trimmed m k st :
  reachable m k st → ∀ w, w ∈ items st → trim w = w.
Proof.
  induction 1 as [st0 st [_ ->]%configure_Some|st a _ IH]; intros w.
  { simpl. by intros ?%elem_of_nil. }
  destruct a as [x t|x t|x t]; simpl.
  - destruct (decide (trim x = [])) as [Hb|Hb].
    + rewrite handleInsert_blank by done. apply IH.
    + rewrite items_handleInsert by done. simpl.
      intros [Hw| ->%list_elem_of_singleton]%elem_of_app;
        [by apply IH|apply trim_idem].
  - unfold handleCheck. simpl. destruct (isEmpty (trim x)); apply IH.
  - destruct (decide (trim x = [])) as [Hb|Hb].
    { rewrite handleDelete_blank by done. apply IH. }
    destruct (decide (trim x ∈ items st)) as [Hin|Hin].
    + destruct (handleDelete_word t (setInputValue x st) Hb Hin)
        as (l1 & l2 & Hitems & _ & ->). simpl in *.
      intros Hw. apply IH. rewrite Hitems.
      apply elem_of_app in Hw as [Hw|Hw]; apply elem_of_app;
        [by left|right; by apply elem_of_cons; right].
    + unfold handleDelete. simpl.
      rewrite (proj2 (isEmpty_false _) Hb).
      rewrite (proj2 (includes_false _ _) Hin). simpl. apply IH.
Qed.

(** X8: every member of a reachable state is a word as [trim] leaves it:
    not empty, and without white space at either end. *)
Theorem members_trimmed m k st w :
  reachable m k st → w ∈ items st →
  w ≠ [] ∧ trim w = w
  ∧ (∀ c, head w = Some c → isWhiteSpace c = false)
  ∧ (∀ c, last w = Some c → isWhiteSpace c = false).
Proof.
  intros Hreach Hw.
  pose proof (reachable_items_trimmed m k st Hreach w Hw) as Htrim.
  pose proof (inv_items _ _ _ (reachable_Inv m k st Hreach) w Hw) as Hne.
  destruct (trim_clean w) as [Hstart Hend]. rewrite Htrim in Hstart, Hend.
  split_and!; [done..| |].
  - intros c Hc. destruct w as [|d w]; [done|]. injection Hc as ->.
    eapply trimStart_head, Hstart.
  - intros c Hc. rewrite <- head_reverse in Hc.
    destruct (reverse w) as [|d r]; [done|]. injection Hc as ->.
    eapply trimStart_head, Hend.
Qed.

Lemma members_trimmed_witness :
  items (run [Insert (str "  padded word ") 1] initialState)
  = [str "padded word"]
  ∧ trim (str "padded word") = str "padded word".
Proof.
  split; [reflexivity|].
  apply (members_trimmed 20 3
           (run [Insert (str "  padded word ") 1] initialState)
           (str "padded word"));
    [apply reachable_run, (reachable_fresh 20 3 initialState); reflexivity|].
  vm_compute. apply list_elem_of_here.
Defined.

(** ** App.tsx: the counters *)

Section Counters.

Context (m k : Z).

Implicit Types (st : AppState) (x w : jsstring) (j : nat).

Lemma filter_all_true {A} (f : A → bool) (l : list A) :
  (∀ y, y ∈ l → f y = true) → List.filter f l = l.
Proof.
  induction l as [|y l IH]; intros Hall; simpl; [done|].
  rewrite (Hall y (list_elem_of_here _ _)), IH; [done|].
  intros z Hz. apply Hall. by apply elem_of_cons; right.
Qed.

Lemma occurrences_le_length j idxs : (occurrences j idxs ≤ length idxs)%nat.
Proof. apply length_filter. Qed.

Lemma occurrences_zero j idxs :
  Num (Z.of_nat j) ∉ idxs → occurrences j idxs = 0%nat.
Proof.
  intros Hj. destruct (occurrences j idxs) eqn:Hocc; [done|].
  exfalso. apply Hj. unfold occurrences in Hocc.
  destruct (filter _ idxs) as [|idx l] eqn:Hf; [done|].
  assert (idx ∈ filter (fun idx => idx = Num (Z.of_nat j)) idxs) as Hin
    by (rewrite Hf; apply list_elem_of_here).
  apply list_elem_of_filter in Hin as [-> Hin]. done.
Qed.

Lemma load_bound items j :
  (load m k items j ≤ length items * Z.to_nat k)%nat.
Proof.
  induction items as [|w items IH]; [done|].
  rewrite load_cons. simpl.
  pose proof (occurrences_le_length j (getHashIndices w m k)) as Hocc.
  rewrite length_getHashIndices in Hocc. lia.
Qed.

(** Without members every counter is 0. *)
Lemma Inv_empty st j c :
  Inv m k st → items st = [] → bitArray st !! j = Some c → c = Num 0.
Proof.
  intros HI Hitems Hj.
  assert (j < Z.to_nat m)%nat as Hlt
    by (rewrite <- (inv_length _ _ _ HI); eapply lookup_lt_Some, Hj).
  rewrite (inv_cells _ _ _ HI j Hlt), Hitems in Hj. by injection Hj as <-.
Qed.

(** The cells that are counted as filled are those of positive load. *)
Lemma filled_le_sum (f : nat → nat) (l : list nat) :
  (length (List.filter gt0 ((fun j => Num (Z.of_nat (f j))) <$> l))
   ≤ sum_list_with f l)%nat.
Proof.
  induction l as [|j l IH]; [done|].
  rewrite fmap_cons. simpl.
  destruct (Z.ltb_spec 0 (Z.of_nat (f j))); simpl; lia.
Qed.

End Counters.

(** X9: a filter without members has no false positives: in a reachable
    state of capacity [1 <= m] and hash count [1 <= k] whose members list
    is empty (fresh, or everything deleted again), Check of any item
    records a miss, with every one of the item's indices missing. *)
Theorem check_without_members m k st x now :
  reachable m k st → items st = [] → 1 ≤ m → 1 ≤ k → trim x ≠ [] →
  lastOperation (perform st (Check x now))
  = Some {| type := OperationType.check; word := trim x;
            indices := getHashIndices (trim x) m k; isMatch := false;
            isFalsePositive := false;
            missingIndices := Some (getHashIndices (trim x) m k);
            timestamp := now |}.
Proof.
  intros HI%reachable_Inv Hitems Hm Hk Hblank%isEmpty_false.
  simpl. rewrite handleCheck_lastOperation by done. simpl.
  rewrite (inv_size _ _ _ HI), (inv_hashCount _ _ _ HI).
  rewrite filter_all_true.
  - rewrite length_getHashIndices.
    destruct (Z.to_nat k) eqn:Hn; [lia|]. done.
  - intros idx Hidx.
    destruct (getCell_hashIndex m k st _ idx HI Hm Hidx) as (j & _ & ->).
    rewrite Hitems, load_nil. done.
Qed.

Lemma check_without_members_witness :
  lastOperation
    (perform (run [Insert (str "x") 1; Delete (str "x") 2] initialState)
             (Check (str "y") 3))
  = Some {| type := OperationType.check; word := trim (str "y");
            indices := getHashIndices (trim (str "y")) 20 3;
            isMatch := false; isFalsePositive := false;
            missingIndices := Some (getHashIndices (trim (str "y")) 20 3);
            timestamp := 3 |}.
Proof.
  apply (check_without_members 20 3);
    [apply reachable_run, (reachable_fresh 20 3 initialState); reflexivity
    |reflexivity|lia|lia|discriminate].
Defined.

(** X10: the shape of the counter array.  In every reachable state the
    array has exactly [size] cells (no Insert ever writes past its end),
    the configuration is the one the filter was constructed with, and
    every cell is an integer between 0 and the number of members times
    the number of hash functions. *)
Theorem bitArray_shape m k st :
  reachable m k st →
  size st = m ∧ hashCount st = k
  ∧ Z.of_nat (length (bitArray st)) = m
  ∧ Forall (fun c => ∃ z, c = Num z
                          ∧ 0 ≤ z ≤ Z.of_nat (length (items st)) * Z.max 0 k)
           (bitArray st).
Proof.
  intros HI%reachable_Inv.
  pose proof (inv_capacity _ _ _ HI) as Hm.
  split_and!; [apply HI..| |].
  - rewrite (inv_length _ _ _ HI). lia.
  - apply Forall_lookup. intros j c Hj.
    assert (j < Z.to_nat m)%nat as Hlt
      by (rewrite <- (inv_length _ _ _ HI); eapply lookup_lt_Some, Hj).
    rewrite (inv_cells _ _ _ HI j Hlt) in Hj. injection Hj as <-.
    eexists. split; [done|].
    pose proof (load_bound m k (items st) j). nia.
Qed.

Lemma bitArray_shape_witness :
  Z.of_nat (length (bitArray (run [Insert (str "x") 1; Insert (str "x") 2]
                                  initialState))) = 20.
Proof.
  apply (bitArray_shape 20 3).
  apply reachable_run, (reachable_fresh 20 3 initialState). reflexivity.
Defined.

(** X11: the statistic [filledBits] of a reachable state lies between 0
    and the capacity, is at most the number of members times the number of
    hash functions, and, for [1 <= m] and [1 <= k], is 0 exactly when
    there is no member. *)
Theorem filledBits_bounds m k st :
  reachable m k st →
  0 ≤ filledBits st ≤ m
  ∧ filledBits st ≤ Z.of_nat (length (items st)) * Z.max 0 k
  ∧ (1 ≤ m → 1 ≤ k → (filledBits st = 0 ↔ items st = [])).
Proof.
  intros HI%reachable_Inv.
  pose proof (inv_capacity _ _ _ HI) as Hm. unfold filledBits.
  split_and!.
  - lia.
  - pose proof (List.filter_length_le gt0 (bitArray st)) as Hle.
    rewrite (inv_length _ _ _ HI) in Hle. lia.
  - destruct (decide (m = 0)) as [->|Hm0].
    + pose proof (inv_length _ _ _ HI) as Hlen.
      destruct (bitArray st); [simpl; lia|done].
    + rewrite (Inv_bitArray m k st HI).
      pose proof (filled_le_sum (load m k (items st)) (seq 0 (Z.to_nat m))).
      rewrite sum_load in H by lia. lia.
  - intros Hm1 Hk1. split.
    + intros Hzero. destruct (items st) as [|w its] eqn:Hitems; [done|].
      exfalso.
      assert (w ∈ items st) as Hw by (rewrite Hitems; apply list_elem_of_here).
      destruct (getHashIndices w m k) as [|idx idxs] eqn:Hidxs.
      { pose proof (length_getHashIndices w m k) as Hl.
        rewrite Hidxs in Hl. simpl in Hl. lia. }
      assert (idx ∈ getHashIndices w m k) as Hidx
        by (rewrite Hidxs; apply list_elem_of_here).
      destruct (getHashIndices_range _ _ _ _ Hm1 Hidx) as (i & -> & Hi).
      pose proof (Inv_member_covered m k st w (Z.to_nat i) HI Hw) as Hcov.
      assert (0 < occurrences (Z.to_nat i) (getHashIndices w m k))%nat as Hocc
        by (apply occurrences_pos; rewrite Z2Nat.id by lia; done).
      assert (bitArray st !! Z.to_nat i
              = Some (Num (Z.of_nat (load m k (items st) (Z.to_nat i)))))
        as Hcell by (apply (inv_cells _ _ _ HI); lia).
      apply list_elem_of_lookup_2 in Hcell.
      assert (Num (Z.of_nat (load m k (items st) (Z.to_nat i)))
              ∈ List.filter gt0 (bitArray st)) as Hin.
      { apply list_elem_of_In, List.filter_In. split.
        - by apply list_elem_of_In.
        - simpl. apply Z.ltb_lt. lia. }
      destruct (List.filter gt0 (bitArray st)); [by apply elem_of_nil in Hin|].
      simpl in Hzero. lia.
    + intros Hitems. rewrite (proj1 (filter_all_false gt0 (bitArray st)));
        [done|].
      intros c [j Hj]%list_elem_of_lookup.
      by rewrite (Inv_empty m k st j c HI Hitems Hj).
Qed.

Lemma filledBits_bounds_witness :
  filledBits (run [Insert (str "alpha") 1; Insert (str "beta") 2]
                  initialState) = 4
  ∧ 4 ≤ Z.of_nat 2 * Z.max 0 3.
Proof.
  split; [reflexivity|].
  destruct (filledBits_bounds 20 3
              (run [Insert (str "alpha") 1; Insert (str "beta") 2]
                   initialState)) as (_ & Hbound & _);
    [apply reachable_run, (reachable_fresh 20 3 initialState); reflexivity|].
  exact Hbound.
Defined.

(** X12: what Insert does to the counters.  In a reachable state, Insert
    of an item adds to every counter the number of times its slot occurs
    among the item's indices, so a counter whose slot is not among them
    keeps its value, and the array keeps its length. *)
Theorem handleInsert_counters m k st x now j c :
  reachable m k st → trim x ≠ [] → bitArray st !! j = Some c →
  let idxs := getHashIndices (trim x) m k in
  let st' := perform st (Insert x now) in
  ∃ z, c = Num z
    ∧ bitArray st' !! j = Some (Num (z + Z.of_nat (occurrences j idxs)))
    ∧ (Num (Z.of_nat j) ∉ idxs → bitArray st' !! j = Some c)
    ∧ length (bitArray st') = length (bitArray st).
Proof.
  intros HI%reachable_Inv Hblank Hj idxs st'.
  assert (j < Z.to_nat m)%nat as Hlt
    by (rewrite <- (inv_length _ _ _ HI); eapply lookup_lt_Some, Hj).
  pose proof (inv_cells _ _ _ HI j Hlt) as Hcell.
  pose proof (getHashIndices_valid m k st (trim x) HI) as Hv.
  pose proof (Inv_length_bound m k st HI) as Hlen.
  rewrite Hcell in Hj. injection Hj as <-.
  assert (bitArray st'
          = fold_left incrementCell idxs (bitArray st)) as ->.
  { unfold st'. simpl. rewrite handleInsert_word by done. simpl.
    by rewrite (inv_size _ _ _ HI), (inv_hashCount _ _ _ HI). }
  eexists. split; [done|]. split_and!.
  - apply lookup_fold_incrementCell; done.
  - intros Hout.
    rewrite (lookup_fold_incrementCell idxs _ j _ Hlen Hv Hcell).
    rewrite occurrences_zero by done. do 2 f_equal. lia.
  - apply length_fold_incrementCell, Hv.
Qed.

Lemma handleInsert_counters_witness :
  bitArray initialState !! 8%nat = Some (Num 0)
  ∧ ∃ z, Num 0 = Num z
      ∧ bitArray (perform initialState (Insert (str "alpha") 1)) !! 8%nat
        = Some (Num (z + Z.of_nat
                           (occurrences 8 (getHashIndices (trim (str "alpha"))
                                                          20 3)))).
Proof.
  split; [reflexivity|].
  destruct (handleInsert_counters 20 3 initialState (str "alpha") 1 8%nat
              (Num 0)) as (z & Hz & Hcell & _);
    [apply (reachable_fresh 20 3 initialState); reflexivity
    |discriminate|reflexivity|].
  exists z. split; [exact Hz|exact Hcell].
Defined.

(** X13: what Delete does to the counters.  In a reachable state, Delete
    of a member takes from every counter exactly the number of times its
    slot occurs among the member's indices (the counter held at least that
    much), so a counter whose slot is not among them keeps its value. *)
Theorem handleDelete_counters m k st x now j c :
  reachable m k st → trim x ∈ items st → bitArray st !! j = Some c →
  let idxs := getHashIndices (trim x) m k in
  let st' := perform st (Delete x now) in
  ∃ z, c = Num z
    ∧ Z.of_nat (occurrences j idxs) ≤ z
    ∧ bitArray st' !! j = Some (Num (z - Z.of_nat (occurrences j idxs)))
    ∧ (Num (Z.of_nat j) ∉ idxs → bitArray st' !! j = Some c)
    ∧ length (bitArray st') = length (bitArray st).
Proof.
  intros HI%reachable_Inv Hmember Hj idxs st'.
  assert (j < Z.to_nat m)%nat as Hlt
    by (rewrite <- (inv_length _ _ _ HI); eapply lookup_lt_Some, Hj).
  pose proof (inv_cells _ _ _ HI j Hlt) as Hcell.
  pose proof (Inv_member_covered m k st (trim x) j HI Hmember) as Hcov.
  fold idxs in Hcov.
  rewrite Hcell in Hj. injection Hj as <-.
  assert (bitArray st'
          = fold_left decrementCell idxs (bitArray st)) as ->.
  { unfold st'. simpl.
    destruct (handleDelete_word now (setInputValue x st))
      as (l1 & l2 & _ & _ & ->);
      [apply (inv_items _ _ _ HI), Hmember|done|]. simpl.
    by rewrite (inv_size _ _ _ HI), (inv_hashCount _ _ _ HI). }
  eexists. split; [done|]. split_and!.
  - lia.
  - rewrite (lookup_fold_decrementCell idxs _ j _ Hcell) by lia.
    do 2 f_equal. lia.
  - intros Hout.
    rewrite (lookup_fold_decrementCell idxs _ j _ Hcell) by lia.
    rewrite occurrences_zero by done. do 2 f_equal. lia.
  - apply length_fold_decrementCell.
Qed.

Lemma handleDelete_counters_witness :
  bitArray (run [Insert (str "alpha") 1; Insert (str "beta") 2] initialState)
    !! 8%nat = Some (Num 2)
  ∧ bitArray (run [Insert (str "alpha") 1; Insert (str "beta") 2;
                   Delete (str "alpha") 3] initialState) !! 8%nat
    = Some (Num 1).
Proof.
  split; [reflexivity|].
  destruct (handleDelete_counters 20 3
              (run [Insert (str "alpha") 1; Insert (str "beta") 2]
                   initialState) (str "alpha") 3 8%nat (Num 2))
    as (z & Hz & _ & Hcell & _);
    [apply reachable_run, (reachable_fresh 20 3 initialState); reflexivity
    |vm_compute; apply list_elem_of_here|reflexivity|].
  injection Hz as <-. exact Hcell.
Defined.

(** ** App.tsx: the last operation *)

Section LastOperation.

Context (m k : Z).

Implicit Types (st : AppState) (r : OperationResult).

Lemma recordInSync_same st st' r :
  bitArray st = bitArray st' → items st = items st' →
  recordInSync m k st r → recordInSync m k st' r.
Proof. unfold recordInSync. by intros -> ->. Qed.

(** The record on display is never stale. *)
Lemma reachable_recordInSync st :
  reachable m k st → ∀ r, lastOperation st = Some r → recordInSync m k st r.
Proof.
  induction 1 as [st0 st [_ ->]%configure_Some|st a Hreach IH]; intros r;
    [done|].
  pose proof (reachable_Inv m k st Hreach) as HI.
  pose proof (inv_size _ _ _ HI) as Hsz.
  pose proof (inv_hashCount _ _ _ HI) as Hk.
  destruct a as [x t|x t|x t]; simpl;
    (destruct (decide (trim x = [])) as [Hb|Hb];
     [first [rewrite handleInsert_blank by done
            |rewrite handleDelete_blank by done
            |unfold handleCheck; simpl; rewrite Hb; simpl];
      intros Hr; by apply (recordInSync_same st), IH|]).
  - rewrite handleInsert_word by done. simpl. intros [= <-].
    unfold recordInSync. simpl. rewrite Hsz, Hk.
    split_and!; try done. apply elem_of_app. right. apply list_elem_of_here.
  - rewrite handleCheck_lastOperation by (by apply isEmpty_false). simpl.
    intros [= <-]. unfold recordInSync. simpl. rewrite Hsz, Hk.
    unfold handleCheck. simpl. rewrite (proj2 (isEmpty_false _) Hb). simpl.
    done.
  - destruct (decide (trim x ∈ items st)) as [Hin|Hin].
    + destruct (handleDelete_word t (setInputValue x st) Hb Hin)
        as (l1 & l2 & _ & _ & ->). simpl. intros [= <-].
      unfold recordInSync. simpl. rewrite Hsz, Hk. done.
    + unfold handleDelete. simpl.
      rewrite (proj2 (isEmpty_false _) Hb).
      rewrite (proj2 (includes_false _ _) Hin). simpl.
      intros Hr. by apply (recordInSync_same st), IH.
Qed.

(** In a reachable state a counter that a subscript of the record reads
    is [0] or positive, never anything else. *)
Lemma reachable_cell st (i : nat) count :
  reachable m k st → bitArray st !! i = Some count →
  ∃ z, count = Num z ∧ 0 ≤ z
       ∧ getCell (bitArray st) (Num (Z.of_nat i)) = Num z.
Proof.
  intros HI%reachable_Inv Hi.
  assert (i < Z.to_nat m)%nat as Hlt
    by (rewrite <- (inv_length _ _ _ HI); eapply lookup_lt_Some, Hi).
  rewrite getCell_Num, Hi. simpl.
  rewrite (inv_cells _ _ _ HI i Hlt) in Hi. injection Hi as <-.
  eexists. split_and!; [done|lia|done].
Qed.

End LastOperation.

(** X14: the record on display is never stale.  In every reachable state,
    the last operation recorded (if any) is an insert, a check or a delete
    of a non-empty word, its indices are the indices of that word for the
    present configuration, and, for a check, its missing indices, its
    verdict and its false-positive flag are those that the present counters
    and members give; for an insert the word is among the members. *)
Theorem lastOperation_in_sync m k st r :
  reachable m k st → lastOperation st = Some r → recordInSync m k st r.
Proof. intros Hreach. by apply reachable_recordInSync. Qed.

Lemma lastOperation_in_sync_witness :
  ∃ r, lastOperation
         (run [Insert (str "alpha") 1; Check (str "beta") 2;
               Delete (str "ghost") 3] initialState) = Some r
       ∧ type r = OperationType.check
       ∧ recordInSync 20 3
           (run [Insert (str "alpha") 1; Check (str "beta") 2;
                 Delete (str "ghost") 3] initialState) r.
Proof.
  eexists. split; [reflexivity|]. split; [reflexivity|].
  apply (lastOperation_in_sync 20 3);
    [apply reachable_run, (reachable_fresh 20 3 initialState)|];
    reflexivity.
Defined.

(** ** components/Simulation.tsx *)

Section Scene.

Import Simulation.

Lemma elem_of_missing arr idxs idx :
  idx ∈ List.filter (fun idx => strictEq0 (getCell arr idx)) idxs
  ↔ idx ∈ idxs ∧ getCell arr idx = Num 0.
Proof.
  rewrite list_elem_of_In, List.filter_In, <- list_elem_of_In, strictEq0_iff.
  done.
Qed.

(** X15: how a check is painted.  In a reachable state whose last record
    is a check, the box of a cell is red exactly when its index is among
    the missing indices of the record, orange exactly when the record is a
    false positive and the cell is one of its indices, green exactly when
    the cell is one of its indices, not missing, and the record is no
    false positive; every other box is cyan or dark by its own counter. *)
Theorem BitBox_after_check m k st r (i : nat) count :
  reachable m k st → lastOperation st = Some r →
  type r = OperationType.check → bitArray st !! i = Some count →
  let color := fst (BitBox_target (Z.of_nat i) count (Some r)) in
  let missing := default [] (missingIndices r) in
  (color = COLOR_CHECK_MISS ↔ Num (Z.of_nat i) ∈ missing)
  ∧ (color = COLOR_FALSE_POSITIVE
     ↔ isFalsePositive r = true ∧ Num (Z.of_nat i) ∈ indices r)
  ∧ (color = COLOR_CHECK_MATCH
     ↔ isFalsePositive r = false ∧ Num (Z.of_nat i) ∈ indices r
       ∧ Num (Z.of_nat i) ∉ missing)
  ∧ (Num (Z.of_nat i) ∉ indices r →
     color = if gt0 count then COLOR_ON else COLOR_OFF).
Proof.
  intros Hreach Hlast Htype Hi color missing.
  destruct (reachable_recordInSync m k st Hreach r Hlast) as (_ & _ & Hsync).
  rewrite Htype in Hsync. destruct Hsync as (Hmissing & Hmatch & Hfp).
  destruct (reachable_cell m k st i count Hreach Hi) as (z & -> & Hz & Hcell).
  assert (∀ idx, idx ∈ missing ↔ idx ∈ indices r
                                  ∧ getCell (bitArray st) idx = Num 0)
    as Hmiss by (intros idx; unfold missing; rewrite Hmissing;
                 apply elem_of_missing).
  assert (isFalsePositive r = true → missing = []) as Hfpmiss.
  { rewrite Hfp, Hmatch. intros [Hlen _]%andb_true_iff.
    apply Nat.eqb_eq, nil_length_inv in Hlen.
    unfold missing. by rewrite Hmissing, Hlen. }
  unfold color, BitBox_target. rewrite Htype. simpl.
  destruct (decide (Num (Z.of_nat i) ∈ indices r)) as [Hin|Hout].
  - rewrite bool_decide_eq_true_2 by done.
    destruct (isFalsePositive r) eqn:HFP; simpl.
    + rewrite (Hfpmiss eq_refl).
      split_and!; [split; [done|by intros ?%elem_of_nil]
                  |done
                  |split; [done|by intros (? & _)]
                  |done].
    + destruct (Z.ltb_spec 0 z); simpl.
      * split_and!; [split; [done|]
                    |split; [done|by intros (? & _)]
                    |split; [intros _; split_and!; [done..|]|done]
                    |done];
          rewrite Hmiss, Hcell; intros [_ [= ->]]; lia.
      * assert (z = 0) as -> by lia.
        split_and!; [split; [intros _; apply Hmiss; by rewrite Hcell|done]
                    |split; [done|by intros (? & _)]
                    |split; [done|]
                    |done].
        intros (_ & _ & Hnot). exfalso. apply Hnot, Hmiss. by rewrite Hcell.
  - rewrite bool_decide_eq_false_2 by done. simpl.
    split_and!; [split; [|intros [? _]%Hmiss; done]
                |split; [|by intros (_ & ?)]
                |split; [|by intros (_ & ? & _)]
                |done];
      destruct (0 <? z); discriminate.
Qed.

Lemma BitBox_after_check_witness :
  fst (BitBox_target (Z.of_nat 6) (Num 0)
         (lastOperation (run [Insert (str "alpha") 1; Check (str "beta") 2]
                             initialState)))
  = COLOR_CHECK_MISS.
Proof.
  destruct (lastOperation (run [Insert (str "alpha") 1; Check (str "beta") 2]
                               initialState)) as [r|] eqn:Hr; [|discriminate].
  apply (BitBox_after_check 20 3
           (run [Insert (str "alpha") 1; Check (str "beta") 2] initialState)
           r 6 (Num 0));
    [apply reachable_run, (reachable_fresh 20 3 initialState); reflexivity
    |exact Hr
    |vm_compute in Hr; by injection Hr as <-
    |reflexivity
    |vm_compute in Hr; injection Hr as <-; vm_compute; apply list_elem_of_here].
Defined.

Lemma getCell_zero_inv arr idx :
  getCell arr idx = Num 0 →
  ∃ i : nat, idx = Num (Z.of_nat i) ∧ arr !! i = Some (Num 0).
Proof.
  destruct idx as [z| |]; simpl; [|done..].
  case_bool_decide as Hz; [|done].
  destruct (arr !! Z.to_nat z) as [c|] eqn:Hc; simpl; [|done].
  intros ->. exists (Z.to_nat z). rewrite Z2Nat.id by done. done.
Qed.

Lemma BitBox_miss_inv index count op :
  fst (BitBox_target index count (Some op)) = COLOR_CHECK_MISS →
  type op = OperationType.check ∧ isFalsePositive op = false
  ∧ Num index ∈ indices op ∧ gt0 count = false.
Proof.
  unfold BitBox_target. case_bool_decide as Hin.
  - destruct (type op), (isFalsePositive op), (gt0 count); simpl;
      intros Heq; try discriminate Heq; done.
  - destruct (gt0 count); discriminate.
Qed.

(** X16: the beams agree with the boxes.  In a reachable state with a
    last record, every box that the record targets has the colour of the
    beams, except on a miss, where the beams are red and the targeted boxes
    with a positive counter are green; and the beams are red exactly when
    some box is red. *)
Theorem ConnectionBeams_agree_with_boxes m k st r :
  reachable m k st → lastOperation st = Some r →
  (∀ (i : nat) count,
     bitArray st !! i = Some count → Num (Z.of_nat i) ∈ indices r →
     let box := fst (BitBox_target (Z.of_nat i) count (Some r)) in
     box = ConnectionBeams_color r
     ∨ (ConnectionBeams_color r = COLOR_CHECK_MISS
        ∧ box = COLOR_CHECK_MATCH ∧ gt0 count = true))
  ∧ (ConnectionBeams_color r = COLOR_CHECK_MISS
     ↔ ∃ box, box ∈ SimulationScene_boxes st ∧ fst box = COLOR_CHECK_MISS).
Proof.
  intros Hreach Hlast.
  assert ((∃ box, box ∈ SimulationScene_boxes st
                  ∧ fst box = COLOR_CHECK_MISS)
          ↔ ∃ (i : nat) count,
              bitArray st !! i = Some count
              ∧ fst (BitBox_target (Z.of_nat i) count (Some r))
                = COLOR_CHECK_MISS) as ->.
  { unfold SimulationScene_boxes. rewrite Hlast. split.
    - intros (box & (i & count & -> & Hi)%elem_of_lookup_imap & Hbox).
      by exists i, count.
    - intros (i & count & Hi & Hbox). eexists. split; [|exact Hbox].
      apply elem_of_lookup_imap. by exists i, count. }
  destruct (reachable_recordInSync m k st Hreach r Hlast) as (_ & _ & Hsync).
  split.
  - intros i count Hi Hin.
    destruct (reachable_cell m k st i count Hreach Hi)
      as (z & -> & Hz & Hcell).
    unfold BitBox_target, ConnectionBeams_color. simpl.
    rewrite bool_decide_eq_true_2 by done.
    destruct (type r); [by left| |by left|done].
    destruct Hsync as (Hmissing & Hmatch & Hfp).
    destruct (isFalsePositive r); [by left|].
    destruct (Z.ltb_spec 0 z); simpl.
    + destruct (isMatch r); [by left|by right].
    + assert (z = 0) as -> by lia.
      assert (isMatch r = false) as ->; [|by left].
      rewrite Hmatch. apply Nat.eqb_neq. intros Hlen%nil_length_inv.
      assert (Num (Z.of_nat i)
              ∈ List.filter
                  (fun idx => strictEq0 (getCell (bitArray st) idx))
                  (indices r)) as Hmiss
        by (apply elem_of_missing; by rewrite Hcell).
      rewrite Hlen in Hmiss. by apply elem_of_nil in Hmiss.
  - split.
    + unfold ConnectionBeams_color.
      destruct (type r) eqn:Htype; try discriminate.
      destruct Hsync as (Hmissing & Hmatch & Hfp).
      destruct (isFalsePositive r) eqn:HFP; [discriminate|].
      destruct (isMatch r) eqn:HM; [discriminate|]. intros _.
      symmetry in Hmatch. apply Nat.eqb_neq in Hmatch.
      destruct (List.filter _ (indices r)) as [|idx l] eqn:Hf; [done|].
      assert (idx ∈ List.filter
                      (fun idx => strictEq0 (getCell (bitArray st) idx))
                      (indices r)) as Hidx
        by (rewrite Hf; apply list_elem_of_here).
      apply elem_of_missing in Hidx as [Hin Hzero].
      destruct (getCell_zero_inv _ _ Hzero) as (i & -> & Hi).
      exists i, (Num 0). split; [done|].
      unfold BitBox_target. rewrite Htype, HFP. simpl.
      rewrite bool_decide_eq_true_2 by done. done.
    + intros (i & count & Hi & Hbox).
      apply BitBox_miss_inv in Hbox as (Htype & HFP & Hin & Hgt).
      destruct (reachable_cell m k st i count Hreach Hi)
        as (z & -> & Hz & Hcell).
      simpl in Hgt. apply Z.ltb_ge in Hgt. assert (z = 0) as -> by lia.
      unfold ConnectionBeams_color. rewrite Htype, HFP.
      rewrite Htype in Hsync. destruct Hsync as (Hmissing & Hmatch & Hfp).
      assert (isMatch r = false) as ->; [|done].
      rewrite Hmatch. apply Nat.eqb_neq. intros Hlen%nil_length_inv.
      assert (Num (Z.of_nat i)
              ∈ List.filter
                  (fun idx => strictEq0 (getCell (bitArray st) idx))
                  (indices r)) as Hmiss
        by (apply elem_of_missing; by rewrite Hcell).
      rewrite Hlen in Hmiss. by apply elem_of_nil in Hmiss.
Qed.

Lemma ConnectionBeams_agree_with_boxes_witness :
  ∃ r, lastOperation (run [Insert (str "alpha") 1; Check (str "beta") 2]
                          initialState) = Some r
       ∧ ConnectionBeams_color r = COLOR_CHECK_MISS
       ∧ ∃ box, box ∈ SimulationScene_boxes
                        (run [Insert (str "alpha") 1; Check (str "beta") 2]
                             initialState)
                ∧ fst box = COLOR_CHECK_MISS.
Proof.
  eexists. split; [reflexivity|]. split; [reflexivity|].
  eapply (ConnectionBeams_agree_with_boxes 20 3);
    [apply reachable_run, (reachable_fresh 20 3 initialState)| |];
    reflexivity.
Defined.

(** X17: what the label says after a check.  In a reachable state whose
    last record is a check of the word [w], the label reads FOUND exactly
    when [w] is among the members, FALSE POSITIVE exactly when the record
    is a false positive, NOT FOUND exactly when the record is no match; and
    it is orange exactly for a false positive. *)
Theorem FloatingLabel_after_check m k st r :
  reachable m k st → lastOperation st = Some r →
  type r = OperationType.check →
  let text := FloatingLabel_displayText r in
  (text = str "FOUND: " ++ quoted (word r) ↔ word r ∈ items st)
  ∧ (text = str "FALSE POSITIVE: " ++ quoted (word r)
     ↔ isFalsePositive r = true)
  ∧ (text = str "NOT FOUND: " ++ quoted (word r) ↔ isMatch r = false)
  ∧ (FloatingLabel_color r = COLOR_FALSE_POSITIVE
     ↔ isFalsePositive r = true).
Proof.
  intros Hreach Hlast Htype text.
  destruct (reachable_recordInSync m k st Hreach r Hlast)
    as (_ & Hidxs & Hsync).
  rewrite Htype in Hsync. destruct Hsync as (_ & Hmatch & Hfp).
  assert (word r ∈ items st → isMatch r = true) as Hmember.
  { intros Hw. rewrite Hmatch, Hidxs.
    rewrite (member_not_missing m k st (word r)
               (reachable_Inv m k st Hreach) Hw). done. }
  assert (∀ p q : jsstring,
            take 2 p ≠ take 2 q → length p ≥ 2 → length q ≥ 2 →
            p ++ quoted (word r) ≠ q ++ quoted (word r))%nat as Hdiff.
  { intros p q Hpq Hp Hq Heq. apply Hpq.
    apply (f_equal (take 2)) in Heq.
    by rewrite !take_app_le in Heq by lia. }
  unfold text, FloatingLabel_displayText, FloatingLabel_color.
  rewrite Htype.
  destruct (isFalsePositive r) eqn:HFP.
  - symmetry in Hfp. apply andb_true_iff in Hfp as [HM Hnot].
    apply negb_true_iff, includes_false in Hnot. rewrite HM.
    split_and!; [split; [|done]|done|split; [|done]|done];
      intros Heq; exfalso; revert Heq; apply Hdiff;
      (vm_compute; first [lia|discriminate]).
  - destruct (isMatch r) eqn:HM.
    + simpl in Hfp. symmetry in Hfp.
      apply negb_false_iff, includes_true in Hfp.
      split_and!; [done|split; [|done]|split; [|done]|split; [|done]];
        intros Heq; exfalso; revert Heq;
        first [apply Hdiff; vm_compute; first [lia|discriminate]
              |discriminate].
    + split_and!; [split|split; [|done]|done|split; [|done]].
      * intros Heq. exfalso. revert Heq.
        apply Hdiff; vm_compute; first [lia|discriminate].
      * intros Hw. apply Hmember in Hw. congruence.
      * intros Heq. exfalso. revert Heq.
        apply Hdiff; vm_compute; first [lia|discriminate].
      * discriminate.
Qed.

Lemma FloatingLabel_after_check_witness :
  FloatingLabel_displayText
    <$> lastOperation (run [Insert (str "alpha") 1; Check (str " alpha") 2]
                           initialState)
  = Some (str "FOUND: " ++ quoted (str "alpha")).
Proof.
  destruct (lastOperation (run [Insert (str "alpha") 1;
                                Check (str " alpha") 2] initialState))
    as [r|] eqn:Hr; [|discriminate].
  simpl. f_equal.
  assert (word r = str "alpha") as Hword
    by (vm_compute in Hr; by injection Hr as <-).
  rewrite <- Hword.
  apply (FloatingLabel_after_check 20 3
           (run [Insert (str "alpha") 1; Check (str " alpha") 2]
                initialState) r);
    [apply reachable_run, (reachable_fresh 20 3 initialState); reflexivity
    |exact Hr
    |vm_compute in Hr; by injection Hr as <-
    |rewrite Hword; vm_compute; apply list_elem_of_here].
Defined.

(** X18: the label never reads CHECKING.  Whatever the record, the text
    that line 487 builds from the prefix of line 483 is replaced by lines
    490-496 before it is shown: the label starts with INSERTING, DELETING,
    FOUND, NOT FOUND or FALSE POSITIVE, or, for an idle record, with the
    colon, followed by the quoted word. *)
Theorem FloatingLabel_never_checking r :
  (∃ p, p ∈ [str "INSERTING"; str "DELETING"; str "FOUND"; str "NOT FOUND";
             str "FALSE POSITIVE"; []]
        ∧ FloatingLabel_displayText r = p ++ str ": " ++ quoted (word r))
  ∧ ¬ (str "CHECKING" `prefix_of` FloatingLabel_displayText r).
Proof.
  assert (∀ p, p ∈ [str "INSERTING"; str "DELETING"; str "FOUND";
                    str "NOT FOUND"; str "FALSE POSITIVE"; []] →
               ¬ (str "CHECKING" `prefix_of`
                    p ++ str ": " ++ quoted (word r))) as Hnot.
  { intros p Hp [rest Heq]. apply (f_equal (take 1)) in Heq.
    repeat (apply elem_of_cons in Hp as [->|Hp]; [by vm_compute in Heq|]).
    by apply elem_of_nil in Hp. }
  assert (∃ p, p ∈ [str "INSERTING"; str "DELETING"; str "FOUND";
                    str "NOT FOUND"; str "FALSE POSITIVE"; []]
               ∧ FloatingLabel_displayText r
                 = p ++ str ": " ++ quoted (word r)) as (p & Hp & Heq).
  { unfold FloatingLabel_displayText.
    destruct (type r);
      [exists (str "INSERTING")
      |destruct (isFalsePositive r);
         [exists (str "FALSE POSITIVE")
         |destruct (isMatch r);
            [exists (str "FOUND")|exists (str "NOT FOUND")]]
      |exists (str "DELETING")
      |exists []];
      (split; [|reflexivity]);
      repeat first [apply list_elem_of_here|apply list_elem_of_further]. }
  split; [by exists p|]. rewrite Heq. by apply Hnot.
Qed.

End Scene.

(** ** App.tsx: alerts *)

(** X19: the only action that raises an alert is Delete of an item (a
    text that [trim] leaves non-empty) that is not among the members, and
    it raises exactly the one of line 91; Insert, Check and a Delete that
    succeeds or is ignored leave the alerts as they are. *)
Theorem alert_only_on_failed_delete st a :
  (alerts (perform st a) ≠ alerts st
   ↔ ∃ x t, a = Delete x t ∧ trim x ≠ [] ∧ (trim x ∉ items st))
  ∧ (alerts (perform st a) = alerts st
     ∨ alerts (perform st a)
       = alerts st ++ [notInSetMessage (trim (actionInput a))]).
Proof.
  assert (∀ (l : list jsstring) y, l ++ [y] ≠ l) as Hgrow.
  { intros l y Heq. apply (f_equal length) in Heq.
    rewrite length_app in Heq. simpl in Heq. lia. }
  destruct a as [x t|x t|x t]; simpl.
  - unfold handleInsert. simpl.
    destruct (isEmpty (trim x)); simpl;
      (split; [split; [done|by intros (? & ? & ? & _)]|by left]).
  - unfold handleCheck. simpl.
    destruct (isEmpty (trim x)); simpl;
      (split; [split; [done|by intros (? & ? & ? & _)]|by left]).
  - unfold handleDelete. simpl.
    destruct (isEmpty (trim x)) eqn:Hblank; simpl.
    { apply isEmpty_true in Hblank.
      split; [split; [done|]|by left].
      intros (? & ? & [= <- _] & ? & _). done. }
    apply isEmpty_false in Hblank.
    destruct (includes (items st) (trim x)) eqn:Hin; simpl.
    + apply includes_true in Hin.
      split; [split; [done|]|by left].
      intros (? & ? & [= <- _] & _ & ?). done.
    + apply includes_false in Hin.
      split; [split; [intros _; by exists x, t|intros _; apply Hgrow]
             |by right].
Qed.

(** ** bloomLogic.ts: the seed of the first hash *)

Lemma fnv1a_seed1_start : xor 2166136261 0x811c9dc5 = 0.
Proof. reflexivity. Qed.

Lemma fnv1a_zero_step : imul (xor 0 0) 16777619 = 0.
Proof. reflexivity. Qed.

Lemma leading_NUL (n : nat) s m :
  fnv1a (replicate n 0 ++ s) 0x811c9dc5 = fnv1a s 0x811c9dc5
  ∧ getHashIndices (replicate n 0 ++ s) m 1 = getHashIndices s m 1.
Proof.
  assert (fnv1a (replicate n 0 ++ s) 0x811c9dc5 = fnv1a s 0x811c9dc5) as Hh1.
  { unfold fnv1a. rewrite fold_left_app. f_equal. f_equal.
    rewrite fnv1a_seed1_start.
    induction n as [|n IH]; simpl; [done|].
    rewrite fnv1a_zero_step. apply IH. }
  split; [done|].
  unfold getHashIndices. rewrite Hh1.
  rewrite (seqZ_cons 0 1), seqZ_nil by lia. simpl.
  unfold hashIndex. rewrite !Z.mul_0_l. done.
Qed.

(** X20: the seed of the first hash is the FNV offset basis itself, so the
    hash starts from 0 and stays there over leading code units 0:
    [fnv1a(s, 0x811c9dc5)] does not change when U+0000 is put in front of
    [s], and with one hash function neither do the indices. *)
Theorem fnv1a_ignores_leading_NUL (n : nat) s m :
  fnv1a (replicate n 0 ++ s) 0x811c9dc5 = fnv1a s 0x811c9dc5
  ∧ getHashIndices (replicate n 0 ++ s) m 1 = getHashIndices s m 1.
Proof. apply leading_NUL. Qed.

Lemma trim_NUL_prefixed (n : nat) w :
  w ≠ [] → trim w = w → trim (replicate (S n) 0 ++ w) = replicate (S n) 0 ++ w.
Proof.
  intros Hne Hw. destruct (trim_clean w) as [_ Hend]. rewrite Hw in Hend.
  unfold trim. rewrite (trimStart_fixed (replicate (S n) 0 ++ w)) by done.
  rewrite reverse_app.
  destruct (reverse w) as [|c r] eqn:Hr.
  { apply (f_equal reverse) in Hr. rewrite reverse_involutive in Hr. done. }
  pose proof (trimStart_head _ _ _ Hend) as Hc.
  rewrite (trimStart_fixed ((c :: r) ++ _)) by done.
  rewrite <- Hr, <- reverse_app, reverse_involutive. done.
Qed.

(** X21: with one hash function, a member and the same text behind any
    number of code units 0 cannot be told apart: in a reachable state of
    hash count 1, Check of U+0000 ... U+0000 followed by a member records a
    match, which is a false positive unless that text is a member too. *)
Theorem NUL_prefixed_member_matches m st w (n : nat) now :
  reachable m 1 st → w ∈ items st →
  let x := replicate (S n) 0 ++ w in
  lastOperation (perform st (Check x now))
  = Some {| type := OperationType.check; word := x;
            indices := getHashIndices w m 1; isMatch := true;
            isFalsePositive := negb (includes (items st) x);
            missingIndices := Some []; timestamp := now |}.
Proof.
  intros Hreach Hw x.
  pose proof (reachable_Inv m 1 st Hreach) as HI.
  pose proof (inv_items _ _ _ HI w Hw) as Hne.
  pose proof (reachable_items_trimmed m 1 st Hreach w Hw) as Htrim.
  pose proof (trim_NUL_prefixed n w Hne Htrim) as Hx. fold x in Hx.
  simpl. rewrite handleCheck_lastOperation
    by (simpl; rewrite Hx; done).
  simpl. rewrite Hx, (inv_size _ _ _ HI), (inv_hashCount _ _ _ HI).
  assert (getHashIndices x m 1 = getHashIndices w m 1) as ->
    by apply leading_NUL.
  rewrite (member_not_missing m 1 st w HI Hw). done.
Qed.

Lemma NUL_prefixed_member_matches_witness :
  ∃ st, configure 20 1 initialState = Some st
    ∧ (fun r => (isMatch r, isFalsePositive r))
        <$> lastOperation
              (perform (run [Insert (str "a") 1] st) (Check (0 :: str "a") 2))
      = Some (true, true).
Proof.
  eexists. split; [reflexivity|].
  rewrite (NUL_prefixed_member_matches 20 _ (str "a") 0 2);
    [reflexivity
    |apply reachable_run, (reachable_fresh 20 1 initialState); reflexivity
    |vm_compute; apply list_elem_of_here].
Defined.

(** ** components/Simulation.tsx: the grid *)

Section GridLayout.

Import Double Grid.

Lemma positionOk_offered :
  forallb (fun s => forallb (positionOk s) (seqZ 0 s))
          ((fun n => 10 * n) <$> seqZ 1 20) = true.
Proof. vm_compute. reflexivity. Qed.

Lemma sizeOffered_elem m :
  sizeOffered m = true → m ∈ (fun n => 10 * n) <$> seqZ 1 20.
Proof.
  unfold sizeOffered.
  intros [[Hlo%Z.leb_le Hhi%Z.leb_le]%andb_true_iff Hmod%Z.eqb_eq]%andb_true_iff.
  apply list_elem_of_fmap. exists (m / 10). split.
  - pose proof (Z.div_mod m 10). lia.
  - apply elem_of_seqZ. pose proof (Z.div_mod m 10). lia.
Qed.

Lemma positionOk_spec m index :
  sizeOffered m = true → 0 ≤ index < m → positionOk m index = true.
Proof.
  intros Hm%sizeOffered_elem Hindex.
  pose proof positionOk_offered as Hall.
  rewrite forallb_forall in Hall.
  specialize (Hall m (proj1 (list_elem_of_In _ _) Hm)).
  rewrite forallb_forall in Hall.
  apply Hall, list_elem_of_In, elem_of_seqZ. lia.
Qed.

End GridLayout.

(** X22: where the boxes stand.  For every size that the slider offers
    and every cell of the array, the double arithmetic of [BitBox] (the
    pitch [0.8 + 0.2] is exactly 1) puts the box at
    [x = col - 9/2] and [z = row - (rows - 1)/2] exactly, with
    [col = index mod 10], [row = index / 10] and [rows = size / 10]: a
    lattice of pitch 1 centred on the origin. *)
Theorem BitBox_position_exact m index :
  sizeOffered m = true → 0 ≤ index < m →
  Double.add Grid.BOX_SIZE Grid.GAP = Double.ofZ 1
  ∧ ∃ px pz qx qz,
      Grid.BitBox_position index m = (px, pz)
      ∧ Double.toQ px = Some qx ∧ Double.toQ pz = Some qz
      ∧ Qeq qx (Qminus (inject_Z (index mod 10)) (Qmake 9 2))
      ∧ Qeq qz (Qminus (inject_Z (index / 10)) (Qmake (m / 10 - 1) 2)).
Proof.
  intros Hm Hindex. split; [by vm_compute|].
  pose proof (positionOk_spec m index Hm Hindex) as Hok.
  unfold Grid.positionOk in Hok.
  destruct (Grid.BitBox_position index m) as [px pz].
  destruct (Double.toQ px) as [qx|] eqn:Hqx; [|done].
  destruct (Double.toQ pz) as [qz|] eqn:Hqz; [|done].
  apply andb_true_iff in Hok as [Hx%Qeq_bool_eq Hz%Qeq_bool_eq].
  exists px, pz, qx, qz. split_and!; [done..|exact Hx|exact Hz].
Qed.

Lemma BitBox_position_exact_witness :
  sizeOffered 20 = true ∧ 0 ≤ 13 < 20
  ∧ ∃ px pz qx qz,
      Grid.BitBox_position 13 20 = (px, pz)
      ∧ Double.toQ px = Some qx ∧ Double.toQ pz = Some qz
      ∧ Qeq qx (Qminus (inject_Z (13 mod 10)) (Qmake 9 2))
      ∧ Qeq qz (Qminus (inject_Z (13 / 10)) (Qmake (20 / 10 - 1) 2)).
Proof.
  split; [reflexivity|]. split; [lia|].
  apply (BitBox_position_exact 20 13); [reflexivity|lia].
Defined.

(** X23: no two boxes overlap.  For every size that the slider offers,
    the boxes of two cells stand a whole number of units apart along x and
    along z, and for two different cells at least one of the two distances
    is not 0, hence at least 1, more than the edge 0.8 of a box. *)
Theorem BitBox_positions_distinct m i j :
  sizeOffered m = true → 0 ≤ i < m → 0 ≤ j < m →
  ∃ pxi pzi pxj pzj qxi qzi qxj qzj (dx dz : Z),
    Grid.BitBox_position i m = (pxi, pzi)
    ∧ Grid.BitBox_position j m = (pxj, pzj)
    ∧ Double.toQ pxi = Some qxi ∧ Double.toQ pzi = Some qzi
    ∧ Double.toQ pxj = Some qxj ∧ Double.toQ pzj = Some qzj
    ∧ Qeq (Qminus qxi qxj) (inject_Z dx)
    ∧ Qeq (Qminus qzi qzj) (inject_Z dz)
    ∧ (i ≠ j → dx ≠ 0 ∨ dz ≠ 0).
Proof.
  intros Hm Hi Hj.
  pose proof (positionOk_spec m i Hm Hi) as Hoki.
  pose proof (positionOk_spec m j Hm Hj) as Hokj.
  unfold Grid.positionOk in Hoki, Hokj.
  destruct (Grid.BitBox_position i m) as [pxi pzi].
  destruct (Grid.BitBox_position j m) as [pxj pzj].
  destruct (Double.toQ pxi) as [qxi|] eqn:Hqxi; [|done].
  destruct (Double.toQ pzi) as [qzi|] eqn:Hqzi; [|done].
  destruct (Double.toQ pxj) as [qxj|] eqn:Hqxj; [|done].
  destruct (Double.toQ pzj) as [qzj|] eqn:Hqzj; [|done].
  apply andb_true_iff in Hoki as [Hxi%Qeq_bool_eq Hzi%Qeq_bool_eq].
  apply andb_true_iff in Hokj as [Hxj%Qeq_bool_eq Hzj%Qeq_bool_eq].
  exists pxi, pzi, pxj, pzj, qxi, qzi, qxj, qzj,
    (i mod 10 - j mod 10), (i / 10 - j / 10).
  split_and!; [done..| | |].
  - rewrite Hxi, Hxj. unfold Z.sub. rewrite inject_Z_plus, inject_Z_opp.
    ring.
  - rewrite Hzi, Hzj. unfold Z.sub at 3. rewrite inject_Z_plus, inject_Z_opp.
    ring.
  - intros Hne. pose proof (Z.div_mod i 10). pose proof (Z.div_mod j 10).
    lia.
Qed.

Lemma BitBox_positions_distinct_witness :
  sizeOffered 200 = true ∧ 0 ≤ 19 < 200 ∧ 0 ≤ 190 < 200
  ∧ ∃ pxi pzi pxj pzj qxi qzi qxj qzj (dx dz : Z),
      Grid.BitBox_position 19 200 = (pxi, pzi)
      ∧ Grid.BitBox_position 190 200 = (pxj, pzj)
      ∧ Double.toQ pxi = Some qxi ∧ Double.toQ pzi = Some qzi
      ∧ Double.toQ pxj = Some qxj ∧ Double.toQ pzj = Some qzj
      ∧ Qeq (Qminus qxi qxj) (inject_Z dx)
      ∧ Qeq (Qminus qzi qzj) (inject_Z dz)
      ∧ (19 ≠ 190 → dx ≠ 0 ∨ dz ≠ 0).
Proof.
  split; [reflexivity|]. split; [lia|]. split; [lia|].
  apply (BitBox_positions_distinct 200 19 190); [reflexivity|lia|lia].
Defined.

(** ** The rates *)

Section RatesProperties.

Import Double Rates.

Lemma fillRateOk_offered :
  forallb (fun s => forallb (fillRateOk s) (seqZ 0 (s + 1)))
          ((fun n => 10 * n) <$> seqZ 1 20) = true.
Proof. vm_compute. reflexivity. Qed.

Lemma zeroRateOk_offered :
  forallb (fun s => forallb (zeroRateOk s) (seqZ 1 10))
          ((fun n => 10 * n) <$> seqZ 1 20) = true.
Proof. vm_compute. reflexivity. Qed.

Lemma Inv_filledBits_range m k st : Inv m k st → 0 ≤ filledBits st ≤ m.
Proof.
  intros HI. pose proof (inv_capacity _ _ _ HI). unfold filledBits.
  pose proof (List.filter_length_le gt0 (bitArray st)) as Hle.
  rewrite (inv_length _ _ _ HI) in Hle. lia.
Qed.

End RatesProperties.

(** X24: the fill rate.  In every reachable state of a size that the
    slider offers, [fillRate] is a double between 0 and 1; it is 0 exactly
    when no counter is positive and 1 exactly when every counter is. *)
Theorem fillRate_bounds m k st :
  reachable m k st → sizeOffered m = true →
  ∃ q, Double.toQ (Rates.fillRate st) = Some q
    ∧ Qle 0 q ∧ Qle q 1
    ∧ (Qeq q 0 ↔ filledBits st = 0)
    ∧ (Qeq q 1 ↔ filledBits st = m).
Proof.
  intros HI%reachable_Inv Hm.
  pose proof (Inv_filledBits_range m k st HI) as Hrange.
  pose proof fillRateOk_offered as Hall.
  rewrite forallb_forall in Hall.
  specialize (Hall m (proj1 (list_elem_of_In _ _) (sizeOffered_elem m Hm))).
  rewrite forallb_forall in Hall.
  assert (In (filledBits st) (seqZ 0 (m + 1))) as Hin
    by (apply list_elem_of_In, elem_of_seqZ; lia).
  specialize (Hall (filledBits st) Hin).
  unfold Rates.fillRate. rewrite (inv_size _ _ _ HI).
  unfold Rates.fillRateOk in Hall.
  destruct (Double.toQ _) as [q|]; [|discriminate Hall].
  exists q. split; [done|].
  destruct (proj1 (andb_true_iff _ _) Hall) as [Hall' Ho%Bool.eqb_prop].
  destruct (proj1 (andb_true_iff _ _) Hall') as [Hall'' Hz%Bool.eqb_prop].
  destruct (proj1 (andb_true_iff _ _) Hall'')
    as [H0%Qle_bool_iff H1%Qle_bool_iff].
  split_and!; [done..| |].
  - rewrite <- Qeq_bool_iff, Hz. apply Z.eqb_eq.
  - rewrite <- Qeq_bool_iff, Ho. apply Z.eqb_eq.
Qed.

Lemma fillRate_bounds_witness :
  ∃ q, Double.toQ
         (Rates.fillRate (run [Insert (str "alpha") 1] initialState)) = Some q
    ∧ Qle 0 q ∧ Qle q 1.
Proof.
  destruct (fillRate_bounds 20 3 (run [Insert (str "alpha") 1] initialState))
    as (q & Hq & H0 & H1 & _);
    [apply reachable_run, (reachable_fresh 20 3 initialState); reflexivity
    |reflexivity|].
  exists q. split; [exact Hq|split; [exact H0|exact H1]].
Defined.

(** X25: the estimate for an empty filter.  Whatever [Math.exp] and
    [Math.pow] are, provided they return what ECMAScript fixes for these
    arguments ([exp] of a zero is 1, [pow] of +0 to a power above 0 is
    +0), [calculateFalsePositiveRate(m, k, 0)] is exactly +0 for every
    configuration that the sliders offer. *)
Theorem calculateFalsePositiveRate_zero
    (Math_exp : Double.double → Double.double)
    (Math_pow : Double.double → Double.double → Double.double) m k :
  (∀ s, Math_exp (S754_zero s) = Double.ofZ 1) →
  (∀ e, SFltb (S754_zero false) e = true →
        Math_pow (S754_zero false) e = S754_zero false) →
  sizeOffered m = true → hashCountOffered k = true →
  Rates.calculateFalsePositiveRate Math_exp Math_pow m k 0 = S754_zero false.
Proof.
  intros Hexp Hpow Hm Hk.
  pose proof zeroRateOk_offered as Hall.
  rewrite forallb_forall in Hall.
  specialize (Hall m (proj1 (list_elem_of_In _ _) (sizeOffered_elem m Hm))).
  rewrite forallb_forall in Hall.
  unfold hashCountOffered in Hk.
  apply andb_true_iff in Hk as [Hk1%Z.leb_le Hk2%Z.leb_le].
  assert (In k (seqZ 1 10)) as Hin
    by (apply list_elem_of_In, elem_of_seqZ; lia).
  specialize (Hall k Hin).
  unfold Rates.calculateFalsePositiveRate.
  unfold Rates.zeroRateOk in Hall.
  destruct (Double.div _ _) as [s| | |]; try discriminate Hall.
  rewrite Hexp.
  change (Double.sub (Double.ofZ 1) (Double.ofZ 1)) with (S754_zero false).
  apply Hpow, Hall.
Qed.

Lemma calculateFalsePositiveRate_zero_witness :
  Rates.calculateFalsePositiveRate
    (fun _ => Double.ofZ 1) (fun b _ => b) 20 3 0
  = S754_zero false.
Proof.
  apply (calculateFalsePositiveRate_zero (fun _ => Double.ofZ 1)
                                         (fun b _ => b) 20 3);
    [reflexivity|reflexivity|reflexivity|reflexivity].
Defined.

(** ** The estimate of the false positive rate

    What [SpecFloat] computes, over the real numbers: [binary_round_aux]
    rounds to nearest, ties to even; the operations round the exact result
    and are monotone. *)

Section RoundingProperties.

Import Rounding.
Local Open Scope R_scope.

Lemma pow2_pos e : 0 < pow2 e.
Proof. apply powerRZ_lt. lra. Qed.

Lemma pow2_add a b : pow2 (a + b) = pow2 a * pow2 b.
Proof. apply powerRZ_add. lra. Qed.



Lemma pow2_opp e : pow2 (- e) = / pow2 e.
Proof. apply powerRZ_neg'. Qed.

Lemma pow2_IZR (n : Z) : (0 ≤ n)%Z → pow2 n = IZR (2 ^ n).
Proof.
  intros Hn. unfold pow2. destruct n as [|p|p]; [reflexivity| |lia].
  symmetry. apply (Zpower_pos_powerRZ 2 p).
Qed.

Lemma pow2_le a b : (a ≤ b)%Z → pow2 a <= pow2 b.
Proof.
  intros Hab. replace b with (a + (b - a))%Z by lia.
  rewrite pow2_add, (pow2_IZR (b - a)) by lia.
  assert (1 <= IZR (2 ^ (b - a))).
  { apply IZR_le. pose proof (Z.pow_pos_nonneg 2 (b - a)). lia. }
  pose proof (pow2_pos a). nra.
Qed.










(** ** Shifting a located mantissa to the right *)






(** ** Rounding a located number *)



Lemma nearestEven_le t1 t2 z1 z2 :
  nearestEven t1 z1 → nearestEven t2 z2 → t1 <= t2 → (z1 ≤ z2)%Z.
Proof.
  intros [Hb1 He1] [Hb2 He2] Hle.
  destruct (decide (z1 ≤ z2)%Z) as [|Hgt]; [done|exfalso].
  assert (z2 + 1 ≤ z1)%Z as Hz by lia.
  apply IZR_le in Hz. rewrite plus_IZR in Hz.
  assert (z1 = z2 + 1)%Z as ->.
  { apply eq_IZR. rewrite plus_IZR. lra. }
  rewrite plus_IZR in *.
  rewrite Z.even_add in He1.
  rewrite He2 in He1 by (right; lra).
  discriminate He1. left. lra.
Qed.

Lemma nearestEven_le_int t z (b : Z) :
  nearestEven t z → t <= IZR b → (z ≤ b)%Z.
Proof.
  intros [Hb _] Hle.
  destruct (decide (z ≤ b)%Z) as [|Hgt]; [done|exfalso].
  assert (b + 1 ≤ z)%Z as Hz by lia.
  apply IZR_le in Hz. rewrite plus_IZR in Hz. lra.
Qed.

Lemma nearestEven_ge_int t z (b : Z) :
  nearestEven t z → IZR b <= t → (b ≤ z)%Z.
Proof.
  intros [Hb _] Hle.
  destruct (decide (b ≤ z)%Z) as [|Hgt]; [done|exfalso].
  assert (z + 1 ≤ b)%Z as Hz by lia.
  apply IZR_le in Hz. rewrite plus_IZR in Hz. lra.
Qed.


Lemma binade_range x c : binade x c → (-1074 ≤ c)%Z.
Proof. intros [[-> _]|[Hc _]]; lia. Qed.

(** The mantissa of a rounded number. *)
Lemma binade_nearestEven x c z :
  0 <= x → binade x c → nearestEven (x / pow2 c) z →
  (0 ≤ z ≤ 2 ^ 53)%Z ∧ ((-1074 < c)%Z → (2 ^ 52 ≤ z)%Z).
Proof.
  intros Hx Hbin Hz. pose proof (pow2_pos c) as Hpc.
  assert (0 <= x / pow2 c) as Ht.
  { apply Rmult_le_pos; [done|]. apply Rlt_le, Rinv_0_lt_compat, Hpc. }
  assert (x / pow2 c < IZR (2 ^ 53)) as Hup.
  { rewrite <- pow2_IZR by lia. apply (Rmult_lt_reg_r (pow2 c)); [done|].
    replace (x / pow2 c * pow2 c) with x by (field; lra).
    rewrite <- pow2_add.
    destruct Hbin as [[-> Hsmall]|[Hc [_ Hhi]]].
    - exact Hsmall.
    - replace (53 + c)%Z with (c + 53)%Z by lia. exact Hhi. }
  split_and!.
  - by apply (nearestEven_ge_int _ _ 0 Hz).
  - apply (nearestEven_le_int _ _ (2 ^ 53) Hz). lra.
  - intros Hc. apply (nearestEven_ge_int _ _ (2 ^ 52) Hz).
    rewrite <- pow2_IZR by lia.
    apply (Rmult_le_reg_r (pow2 c)); [done|].
    replace (x / pow2 c * pow2 c) with x by (field; lra).
    rewrite <- pow2_add.
    destruct Hbin as [[-> _]|[_ [Hlo _]]]; [lia|].
    replace (52 + c)%Z with (c + 52)%Z by lia. exact Hlo.
Qed.




(** ** The doubles that rounding yields *)

Lemma pack_cases s z c :
  (∃ m e, pack s z c = S754_finite s m e)
  ∨ pack s z c = S754_zero s ∨ pack s z c = S754_infinity s.
Proof.
  unfold pack. destruct (z =? 2 ^ 53)%Z.
  - destruct (c + 1 <=? 971)%Z; eauto.
  - destruct z; [eauto| |eauto]. destruct (c <=? 971)%Z; eauto.
Qed.




(** ** The order of doubles *)

Lemma SFleb_finite_pos m1 e1 m2 e2 :
  SFleb (S754_finite false m1 e1) (S754_finite false m2 e2) = true
  ↔ (e1 < e2)%Z ∨ (e1 = e2 ∧ (m1 ≤ m2)%positive).
Proof.
  unfold SFleb, SFcompare.
  destruct (Z.compare_spec e1 e2) as [->|Hlt|Hgt].
  - change (Pos.compare_cont Eq m1 m2) with (m1 ?= m2)%positive.
    destruct (Pos.compare_spec m1 m2) as [->|Hm|Hm];
      (split; [intros Hc|intros [?|[_ ?]]]); try done; try lia; right; lia.
  - split; [left; done|done].
  - split; [done|lia].
Qed.

Lemma SFleb_finite_neg m1 e1 m2 e2 :
  SFleb (S754_finite true m1 e1) (S754_finite true m2 e2) = true
  ↔ (e2 < e1)%Z ∨ (e1 = e2 ∧ (m2 ≤ m1)%positive).
Proof.
  unfold SFleb, SFcompare.
  destruct (Z.compare_spec e1 e2) as [->|Hlt|Hgt].
  - change (Pos.compare_cont Eq m1 m2) with (m1 ?= m2)%positive.
    destruct (Pos.compare_spec m1 m2) as [->|Hm|Hm]; simpl;
      (split; [intros Hc|intros [?|[_ ?]]]); try done; try lia; right; lia.
  - split; [done|lia].
  - split; [left; done|done].
Qed.

Lemma binade_le x y c1 c2 :
  binade x c1 → binade y c2 → x <= y → (c1 ≤ c2)%Z.
Proof.
  intros H1 H2 Hxy.
  destruct (decide (c1 ≤ c2)%Z) as [|Hgt]; [done|exfalso].
  assert (y < pow2 (c2 + 53)) as Hy.
  { destruct H2 as [[-> Hy]|[_ [_ Hy]]]; done. }
  destruct H1 as [[-> _]|[Hc [Hlo _]]].
  - apply binade_range in H2. lia.
  - pose proof (pow2_le (c2 + 53) (c1 + 52) ltac:(lia)). lra.
Qed.

(** Rounding is monotone: the structural comparison of the two packed
    results, exponent first. *)
Lemma pack_le z1 c1 z2 c2 :
  (0 ≤ z1 ≤ 2 ^ 53)%Z → (0 ≤ z2 ≤ 2 ^ 53)%Z →
  (c1 < c2 ∧ 2 ^ 52 ≤ z2)%Z ∨ (c1 = c2 ∧ (z1 ≤ z2)%Z) →
  SFleb (pack false z1 c1) (pack false z2 c2) = true
  ∧ SFleb (pack true z2 c2) (pack true z1 c1) = true.
Proof.
  intros Hz1 Hz2 Hle. unfold pack.
  destruct (z1 =? 2 ^ 53)%Z eqn:Hm1; destruct (z2 =? 2 ^ 53)%Z eqn:Hm2;
    rewrite ?Z.eqb_eq, ?Z.eqb_neq in Hm1, Hm2.
  all: repeat match goal with
       | |- context [(?a <=? ?b)%Z] =>
           let H := fresh "Hover" in
           destruct (a <=? b)%Z eqn:H;
           rewrite ?Z.leb_le, ?Z.leb_gt in H
       | |- context [match ?z with Z0 => _ | Z.pos _ => _ | Z.neg _ => _ end] =>
           destruct z as [|?p|?p]
       end.
  all: try lia; try done.
  all: rewrite ?SFleb_finite_pos, ?SFleb_finite_neg.
  all: split; lia.
Qed.

Lemma rounded_le x y f g :
  0 <= x <= y → rounded false x f → rounded false y g →
  SFleb f g = true.
Proof.
  intros Hxy (c1 & z1 & Hb1 & Hn1 & ->) (c2 & z2 & Hb2 & Hn2 & ->).
  destruct (binade_nearestEven x c1 z1 ltac:(lra) Hb1 Hn1) as [Hz1 _].
  destruct (binade_nearestEven y c2 z2 ltac:(lra) Hb2 Hn2) as [Hz2 Hnorm].
  pose proof (binade_le x y c1 c2 Hb1 Hb2 ltac:(lra)) as Hc.
  apply pack_le; [done..|].
  destruct (decide (c1 = c2)) as [->|Hne].
  - right. split; [done|].
    apply (nearestEven_le _ _ _ _ Hn1 Hn2).
    pose proof (pow2_pos c2). apply Rmult_le_compat_r; [|lra].
    apply Rlt_le, Rinv_0_lt_compat. done.
  - left. split; [lia|]. apply Hnorm. apply binade_range in Hb1. lia.
Qed.

Lemma rounded_ge x y f g :
  0 <= x <= y → rounded true x f → rounded true y g →
  SFleb g f = true.
Proof.
  intros Hxy (c1 & z1 & Hb1 & Hn1 & ->) (c2 & z2 & Hb2 & Hn2 & ->).
  destruct (binade_nearestEven x c1 z1 ltac:(lra) Hb1 Hn1) as [Hz1 _].
  destruct (binade_nearestEven y c2 z2 ltac:(lra) Hb2 Hn2) as [Hz2 Hnorm].
  pose proof (binade_le x y c1 c2 Hb1 Hb2 ltac:(lra)) as Hc.
  apply pack_le; [done..|].
  destruct (decide (c1 = c2)) as [->|Hne].
  - right. split; [done|].
    apply (nearestEven_le _ _ _ _ Hn1 Hn2).
    pose proof (pow2_pos c2). apply Rmult_le_compat_r; [|lra].
    apply Rlt_le, Rinv_0_lt_compat. done.
  - left. split; [lia|]. apply Hnorm. apply binade_range in Hb1. lia.
Qed.

(** Rounding is monotone. *)
Lemma roundedR_le v w f g :
  roundedR v f → roundedR w g → v <= w → SFleb f g = true.
Proof.
  intros [[Hv [s ->]]|[[Hv Hf]|[Hv Hf]]] [[Hw [s' ->]]|[[Hw Hg]|[Hw Hg]]] Hle;
    try lra; try done.
  - destruct Hg as (c & z & _ & _ & ->).
    destruct (pack_cases false z c) as [(m & e & ->)|[->| ->]]; done.
  - apply (rounded_le v w); [lra|done..].
  - destruct Hf as (c & z & _ & _ & ->).
    destruct (pack_cases true z c) as [(m & e & ->)|[->| ->]]; done.
  - destruct Hf as (c & z & _ & _ & ->), Hg as (c' & z' & _ & _ & ->).
    destruct (pack_cases true z c) as [(m & e & ->)|[->| ->]];
      destruct (pack_cases false z' c') as [(m' & e' & ->)|[->| ->]]; done.
  - apply (rounded_ge (- w) (- v)); [lra|done..].
Qed.

(** ** The value of a double *)









(** ** Rounding an integer mantissa: [binary_round], [binary_normalize] *)








(** ** Multiplication *)



(** ** Division *)





(** ** Subtraction *)




(** ** The operations are monotone *)






Lemma roundedR_nonneg v f :
  0 <= v → roundedR v f → SFleb (S754_zero false) f = true.
Proof.
  intros Hv Hf. apply (roundedR_le 0 v); [|done..].
  left. eauto.
Qed.




(** ** Integers as doubles *)




End RoundingProperties.



